(** * The H=N marketplace contract, version 3 (smart-py/objkt_swap_v3.py)

    A shallow embedding of the SmartPy contract [Marketplace] and the
    properties of its swap / collect / cancel state machine, of the payment
    split, and of its governance entry points.

    Conventions of the embedding:
    - [sp.TNat] is [N]; [sp.TMutez] is [N] below [mutez_limit] (a Michelson
      mutez is a 63 bit natural whose arithmetic fails instead of wrapping);
    - [sp.TAddress] and [sp.TString] are [string], [sp.TBytes] is a list of
      bytes, a big map is a [gmap];
    - an entry point is a computation in the monad [M]: it reads and writes
      the contract storage, appends to the list of emitted operations, and may
      fail; a failure keeps the machine as it was when the failing statement
      was reached, and the host discards it ([transaction]). *)

From Stdlib Require Import ZArith NArith Lia.
From stdpp Require Import gmap strings list fin_maps.

Local Open Scope string_scope.
Local Open Scope list_scope.
Local Open Scope N_scope.

(** ** Data model *)

Abbreviation address := string (only parsing).
Abbreviation mutez := N (only parsing).
Abbreviation bytes := (list Byte.byte) (only parsing).

(** Michelson's mutez are 63 bit naturals. *)
Definition mutez_limit : N := 2 ^ 63.

(** [Marketplace.SWAP_TYPE]. *)
Record swap_record := mk_swap {
  issuer : address;
  fa2 : address;
  objkt_id : N;
  objkt_amount : N;
  xtz_per_objkt : mutez;
  royalties : N;
  creator : address
}.

(** The contract storage, as declared by [self.init_type] in [__init__]. *)
Record storage := mk_storage {
  manager : address;
  metadata : gmap string bytes;
  allowed_fa2s : gmap address bool;
  swaps : gmap N swap_record;
  fee : N;
  fee_recipient : address;
  counter : N;
  proposed_manager : option address;
  swaps_paused : bool;
  collects_paused : bool
}.

(** The parameter of the [swap] entry point. *)
Record swap_params := mk_swap_params {
  p_fa2 : address;
  p_objkt_id : N;
  p_objkt_amount : N;
  p_xtz_per_objkt : mutez;
  p_royalties : N;
  p_creator : address
}.

(** The argument of an FA2 [transfer] call, as built by [fa2_transfer]. *)
Record fa2_tx := mk_tx { to_ : address; token_id : N; tx_amount : N }.
Record fa2_batch := mk_batch { from_ : address; txs : list fa2_tx }.

(** Operations a call emits: [sp.send] and [sp.transfer]. *)
Inductive operation :=
| Send (destination : address) (value : mutez)
| Transfer (arg : list fa2_batch) (value : mutez) (destination : address).

(** What an entry point sees of the transaction that calls it:
    [sp.sender], [sp.amount] and [sp.self_address]. *)
Record context := mk_context {
  sender : address;
  amount : mutez;
  self_address : address
}.

(** Ways a call fails. [FailWith] is an [sp.verify] with its message; the
    others are the failures of the primitives the code uses. *)
Inductive failure :=
| FailWith (message : string)
| OpenSomeFailed
| AsNatFailed
| MissingKey
| MutezOverflow
| MutezUnderflow
| DivisionByZero.

(** ** The entry-point monad *)

Record machine := mk_machine {
  data : storage;
  operations : list operation
}.

Inductive outcome (A : Type) :=
| Ok (a : A) (m : machine)
| Abort (e : failure) (m : machine).
Arguments Ok {A} a m.
Arguments Abort {A} e m.

Definition M (A : Type) : Type := machine -> outcome A.

Definition ret {A} (a : A) : M A := fun m => Ok a m.

Definition bind {A B} (c : M A) (k : A -> M B) : M B :=
  fun m => match c m with
           | Ok a m' => k a m'
           | Abort e m' => Abort e m'
           end.

Declare Scope sp_scope.
Delimit Scope sp_scope with sp.
Notation "x ← c ; k" := (bind c (fun x => k))
  (at level 20, c at level 100, k at level 200, only parsing) : sp_scope.
Notation "c ;; k" := (bind c (fun _ => k))
  (at level 100, k at level 200, only parsing, right associativity) : sp_scope.
Local Open Scope sp_scope.

Definition fail {A} (e : failure) : M A := fun m => Abort e m.

(** [self.data.<field>] *)
Definition read {A} (f : storage -> A) : M A := fun m => Ok (f (data m)) m.

(** [self.data.<field> = v], as a storage transformer. *)
Definition write (f : storage -> storage) : M unit :=
  fun m => Ok tt {| data := f (data m); operations := operations m |}.

(** Appends one operation to [sp.operations()]. *)
Definition emit (op : operation) : M unit :=
  fun m => Ok tt {| data := data m; operations := operations m ++ [op] |}.

(** [sp.verify(cond, message=msg)] *)
Definition verify (cond : bool) (msg : string) : M unit :=
  if cond then ret tt else fail (FailWith msg).

(** [sp.if cond: body] *)
Definition when (cond : bool) (body : M unit) : M unit :=
  if cond then body else ret tt.

Definition lift {A} (e : failure) (o : option A) : M A :=
  match o with
  | Some a => ret a
  | None => fail e
  end.

(** ** Primitives *)

(** mutez * nat, failing on overflow. *)
Definition mutez_mul (m : mutez) (n : N) : failure + mutez :=
  if m * n <? mutez_limit then inr (m * n) else inl MutezOverflow.

(** mutez - mutez, failing below zero. *)
Definition mutez_sub (a b : mutez) : failure + mutez :=
  if b <=? a then inr (a - b) else inl MutezUnderflow.

(** [sp.split_tokens(m, quantity, totalQuantity)]:
    [m * quantity / totalQuantity]. *)
Definition split_tokens (m : mutez) (quantity totalQuantity : N) : failure + mutez :=
  match mutez_mul m quantity with
  | inl e => inl e
  | inr p => if totalQuantity =? 0 then inl DivisionByZero
             else inr (p / totalQuantity)
  end.

(** [sp.as_nat] *)
Definition as_nat (z : Z) : failure + N :=
  if (0 <=? z)%Z then inr (Z.to_N z) else inl AsNatFailed.

Definition run {A} (r : failure + A) : M A :=
  match r with
  | inl e => fail e
  | inr a => ret a
  end.

Definition set_swaps (f : gmap N swap_record -> gmap N swap_record)
    (s : storage) : storage :=
  {| manager := manager s; metadata := metadata s;
     allowed_fa2s := allowed_fa2s s; swaps := f (swaps s);
     fee := fee s; fee_recipient := fee_recipient s;
     counter := counter s; proposed_manager := proposed_manager s;
     swaps_paused := swaps_paused s; collects_paused := collects_paused s |}.

Definition set_counter (c : N) (s : storage) : storage :=
  {| manager := manager s; metadata := metadata s;
     allowed_fa2s := allowed_fa2s s; swaps := swaps s;
     fee := fee s; fee_recipient := fee_recipient s;
     counter := c; proposed_manager := proposed_manager s;
     swaps_paused := swaps_paused s; collects_paused := collects_paused s |}.

Definition set_fee (n : N) (s : storage) : storage :=
  {| manager := manager s; metadata := metadata s;
     allowed_fa2s := allowed_fa2s s; swaps := swaps s;
     fee := n; fee_recipient := fee_recipient s;
     counter := counter s; proposed_manager := proposed_manager s;
     swaps_paused := swaps_paused s; collects_paused := collects_paused s |}.

Definition set_fee_recipient (a : address) (s : storage) : storage :=
  {| manager := manager s; metadata := metadata s;
     allowed_fa2s := allowed_fa2s s; swaps := swaps s;
     fee := fee s; fee_recipient := a;
     counter := counter s; proposed_manager := proposed_manager s;
     swaps_paused := swaps_paused s; collects_paused := collects_paused s |}.

Definition set_manager (a : address) (s : storage) : storage :=
  {| manager := a; metadata := metadata s;
     allowed_fa2s := allowed_fa2s s; swaps := swaps s;
     fee := fee s; fee_recipient := fee_recipient s;
     counter := counter s; proposed_manager := proposed_manager s;
     swaps_paused := swaps_paused s; collects_paused := collects_paused s |}.

Definition set_proposed_manager (o : option address) (s : storage) : storage :=
  {| manager := manager s; metadata := metadata s;
     allowed_fa2s := allowed_fa2s s; swaps := swaps s;
     fee := fee s; fee_recipient := fee_recipient s;
     counter := counter s; proposed_manager := o;
     swaps_paused := swaps_paused s; collects_paused := collects_paused s |}.

Definition set_metadata (f : gmap string bytes -> gmap string bytes)
    (s : storage) : storage :=
  {| manager := manager s; metadata := f (metadata s);
     allowed_fa2s := allowed_fa2s s; swaps := swaps s;
     fee := fee s; fee_recipient := fee_recipient s;
     counter := counter s; proposed_manager := proposed_manager s;
     swaps_paused := swaps_paused s; collects_paused := collects_paused s |}.

Definition set_allowed_fa2s (f : gmap address bool -> gmap address bool)
    (s : storage) : storage :=
  {| manager := manager s; metadata := metadata s;
     allowed_fa2s := f (allowed_fa2s s); swaps := swaps s;
     fee := fee s; fee_recipient := fee_recipient s;
     counter := counter s; proposed_manager := proposed_manager s;
     swaps_paused := swaps_paused s; collects_paused := collects_paused s |}.

Definition set_swaps_paused (b : bool) (s : storage) : storage :=
  {| manager := manager s; metadata := metadata s;
     allowed_fa2s := allowed_fa2s s; swaps := swaps s;
     fee := fee s; fee_recipient := fee_recipient s;
     counter := counter s; proposed_manager := proposed_manager s;
     swaps_paused := b; collects_paused := collects_paused s |}.

Definition set_collects_paused (b : bool) (s : storage) : storage :=
  {| manager := manager s; metadata := metadata s;
     allowed_fa2s := allowed_fa2s s; swaps := swaps s;
     fee := fee s; fee_recipient := fee_recipient s;
     counter := counter s; proposed_manager := proposed_manager s;
     swaps_paused := swaps_paused s; collects_paused := b |}.

(** [swap.objkt_amount = n] where [swap] is [self.data.swaps[swap_id]]. *)
Definition set_objkt_amount (n : N) (w : swap_record) : swap_record :=
  {| issuer := issuer w; fa2 := fa2 w; objkt_id := objkt_id w;
     objkt_amount := n; xtz_per_objkt := xtz_per_objkt w;
     royalties := royalties w; creator := creator w |}.

(** ** The contract *)

(** [Marketplace.__init__]: the initial storage. *)
Definition init (manager : address) (metadata : gmap string bytes)
    (allowed_fa2s : gmap address bool) (fee : N) : storage :=
  {| manager := manager;
     metadata := metadata;
     allowed_fa2s := allowed_fa2s;
     swaps := ∅;
     fee := fee;
     fee_recipient := manager;
     counter := 0;
     proposed_manager := None;
     swaps_paused := false;
     collects_paused := false |}.

(** [check_is_manager] *)
Definition check_is_manager (ctx : context) : M unit :=
  mgr ← read manager;
  verify (bool_decide (sender ctx = mgr))
         "This can only be executed by the manager".

(** [check_no_tez_transfer] *)
Definition check_no_tez_transfer (ctx : context) : M unit :=
  verify (amount ctx =? 0) "The operation does not need tez transfers".

(** [self.data.swaps[swap_id]]: the entry of the big map. *)
Definition swaps_item (swap_id : N) : M swap_record :=
  sw ← read swaps;
  lift MissingKey (sw !! swap_id).

Section Marketplace.

(** The chain the contract runs on: which addresses are contracts with a
    [transfer] entry point of the FA2 type. The code of an originated
    contract never changes, so the table is the same for every call. *)
Variable transfer_entry_point : address -> bool.

(** [sp.contract(t, address, entry_point="transfer")] *)
Definition contract_transfer (a : address) : option address :=
  if transfer_entry_point a then Some a else None.

(** Which addresses can be sent tez: the implicit accounts and the contracts
    whose default entry point takes unit. As for [transfer_entry_point], the
    table is the same for every call. *)
Variable unit_entry_point : address -> bool.

(** [sp.contract(sp.TUnit, address)] *)
Definition contract_unit (a : address) : option address :=
  if unit_entry_point a then Some a else None.

(** [sp.send(destination, value)], which is
    [sp.transfer(sp.unit, value, sp.contract(sp.TUnit, destination).open_some())] *)
Definition send (destination : address) (value : mutez) : M unit :=
  c ← lift OpenSomeFailed (contract_unit destination);
  emit (Send c value).

(** [fa2_transfer] *)
Definition fa2_transfer (fa2 from_ to_ : address) (token_id token_amount : N)
    : M unit :=
  c ← lift OpenSomeFailed (contract_transfer fa2);
  emit (Transfer [mk_batch from_ [mk_tx to_ token_id token_amount]] 0 c).

(** Entry point [swap]. *)
Definition swap (ctx : context) (params : swap_params) : M unit :=
  paused ← read swaps_paused;
  verify (negb paused) "Swaps are paused";;
  check_no_tez_transfer ctx;;
  allowed ← read allowed_fa2s;
  verify (default false (allowed !! p_fa2 params))
         "This token type cannot be traded";;
  verify (0 <? p_objkt_amount params)
         "At least one edition needs to be swapped";;
  verify (p_royalties params <=? 250)
         "The royalties cannot be higher than 25%";;
  fa2_transfer (p_fa2 params) (sender ctx) (self_address ctx)
               (p_objkt_id params) (p_objkt_amount params);;
  c ← read counter;
  write (set_swaps (insert c
    {| issuer := sender ctx;
       fa2 := p_fa2 params;
       objkt_id := p_objkt_id params;
       objkt_amount := p_objkt_amount params;
       xtz_per_objkt := p_xtz_per_objkt params;
       royalties := p_royalties params;
       creator := p_creator params |}));;
  c ← read counter;
  write (set_counter (c + 1)).

(** Entry point [collect]. The Python name [swap] of the source is an alias
    of the big-map entry [self.data.swaps[swap_id]]; the last statement
    updates that entry in place. *)
Definition collect (ctx : context) (swap_id : N) : M unit :=
  paused ← read collects_paused;
  verify (negb paused) "Collects are paused";;
  sw ← read swaps;
  verify (bool_decide (is_Some (sw !! swap_id)))
         "The provided swap_id doesn't exist";;
  swap ← swaps_item swap_id;
  verify (negb (bool_decide (sender ctx = issuer swap)))
         "The collector cannot be the swap issuer";;
  verify (amount ctx =? xtz_per_objkt swap)
         "The sent tez amount does not coincide with the edition price";;
  verify (0 <? objkt_amount swap)
         "All editions have already been collected";;
  when (negb (xtz_per_objkt swap =? 0)) (
    royalties_amount ← run (split_tokens (xtz_per_objkt swap) (royalties swap) 1000);
    when (0 <? royalties_amount) (send (creator swap) royalties_amount);;
    fee_rate ← read fee;
    fee_amount ← run (split_tokens (xtz_per_objkt swap) fee_rate 1000);
    recipient ← read fee_recipient;
    when (0 <? fee_amount) (send recipient fee_amount);;
    rest ← run (mutez_sub (amount ctx) royalties_amount);
    rest ← run (mutez_sub rest fee_amount);
    send (issuer swap) rest);;
  fa2_transfer (fa2 swap) (self_address ctx) (sender ctx) (objkt_id swap) 1;;
  n ← run (as_nat (Z.of_N (objkt_amount swap) - 1));
  write (set_swaps (insert swap_id (set_objkt_amount n swap))).

(** Entry point [cancel_swap]. *)
Definition cancel_swap (ctx : context) (swap_id : N) : M unit :=
  check_no_tez_transfer ctx;;
  sw ← read swaps;
  verify (bool_decide (is_Some (sw !! swap_id)))
         "The provided swap_id doesn't exist";;
  swap ← swaps_item swap_id;
  verify (bool_decide (sender ctx = issuer swap))
         "Only the swap issuer can cancel the swap";;
  verify (0 <? objkt_amount swap) "All editions have been collected";;
  fa2_transfer (fa2 swap) (self_address ctx) (sender ctx) (objkt_id swap)
               (objkt_amount swap);;
  write (set_swaps (delete swap_id)).

(** Entry point [update_fee]. *)
Definition update_fee (ctx : context) (new_fee : N) : M unit :=
  check_is_manager ctx;;
  check_no_tez_transfer ctx;;
  verify (new_fee <=? 250) "The management fee cannot be higher than 25%";;
  write (set_fee new_fee).

(** Entry point [update_fee_recipient]. *)
Definition update_fee_recipient (ctx : context) (new_fee_recipient : address)
    : M unit :=
  check_is_manager ctx;;
  check_no_tez_transfer ctx;;
  write (set_fee_recipient new_fee_recipient).

(** Entry point [transfer_manager]. *)
Definition transfer_manager (ctx : context) (proposed : address) : M unit :=
  check_is_manager ctx;;
  check_no_tez_transfer ctx;;
  write (set_proposed_manager (Some proposed)).

(** Entry point [accept_manager]. *)
Definition accept_manager (ctx : context) : M unit :=
  proposed ← read proposed_manager;
  verify (bool_decide (is_Some proposed)) "No new manager has been proposed";;
  proposed ← read proposed_manager;
  p ← lift OpenSomeFailed proposed;
  verify (bool_decide (sender ctx = p))
         "This can only be executed by the proposed manager";;
  check_no_tez_transfer ctx;;
  write (set_manager (sender ctx));;
  write (set_proposed_manager None).

(** Entry point [update_metadata]. *)
Definition update_metadata (ctx : context) (key : string) (value : bytes)
    : M unit :=
  check_is_manager ctx;;
  check_no_tez_transfer ctx;;
  write (set_metadata (insert key value)).

(** Entry point [add_fa2]. *)
Definition add_fa2 (ctx : context) (fa2 : address) : M unit :=
  check_is_manager ctx;;
  check_no_tez_transfer ctx;;
  write (set_allowed_fa2s (insert fa2 true)).

(** Entry point [remove_fa2]. *)
Definition remove_fa2 (ctx : context) (fa2 : address) : M unit :=
  check_is_manager ctx;;
  check_no_tez_transfer ctx;;
  write (set_allowed_fa2s (insert fa2 false)).

(** Entry point [pause_swaps]. *)
Definition pause_swaps (ctx : context) (pause : bool) : M unit :=
  check_is_manager ctx;;
  check_no_tez_transfer ctx;;
  write (set_swaps_paused pause).

(** Entry point [pause_collects]. *)
Definition pause_collects (ctx : context) (pause : bool) : M unit :=
  check_is_manager ctx;;
  check_no_tez_transfer ctx;;
  write (set_collects_paused pause).

(** *** On-chain views: a result or a failure, the storage is not written. *)

Definition get_manager (s : storage) : failure + address := inr (manager s).

Definition is_allowed_fa2 (s : storage) (fa2 : address) : failure + bool :=
  inr (default false (allowed_fa2s s !! fa2)).

Definition has_swap (s : storage) (swap_id : N) : failure + bool :=
  inr (bool_decide (is_Some (swaps s !! swap_id))).

Definition get_swap (s : storage) (swap_id : N) : failure + swap_record :=
  if bool_decide (is_Some (swaps s !! swap_id)) then
    match swaps s !! swap_id with
    | Some w => inr w
    | None => inl MissingKey
    end
  else inl (FailWith "The provided swap_id doesn't exist").

Definition get_swaps_counter (s : storage) : failure + N := inr (counter s).
Definition get_fee (s : storage) : failure + N := inr (fee s).
Definition get_fee_recipient (s : storage) : failure + address :=
  inr (fee_recipient s).

(** ** Transactions *)

(** A call of one entry point with its parameter. *)
Inductive call :=
| Swap (params : swap_params)
| Collect (swap_id : N)
| CancelSwap (swap_id : N)
| UpdateFee (new_fee : N)
| UpdateFeeRecipient (new_fee_recipient : address)
| TransferManager (proposed : address)
| AcceptManager
| UpdateMetadata (key : string) (value : bytes)
| AddFa2 (fa2 : address)
| RemoveFa2 (fa2 : address)
| PauseSwaps (pause : bool)
| PauseCollects (pause : bool).

Definition entry_point (ctx : context) (c : call) : M unit :=
  match c with
  | Swap params => swap ctx params
  | Collect swap_id => collect ctx swap_id
  | CancelSwap swap_id => cancel_swap ctx swap_id
  | UpdateFee new_fee => update_fee ctx new_fee
  | UpdateFeeRecipient a => update_fee_recipient ctx a
  | TransferManager a => transfer_manager ctx a
  | AcceptManager => accept_manager ctx
  | UpdateMetadata k v => update_metadata ctx k v
  | AddFa2 a => add_fa2 ctx a
  | RemoveFa2 a => remove_fa2 ctx a
  | PauseSwaps b => pause_swaps ctx b
  | PauseCollects b => pause_collects ctx b
  end.

(** A call starts on the current storage with no operation emitted. *)
Definition start (s : storage) : machine :=
  {| data := s; operations := [] |}.

(** What the chain keeps of a call: the new storage and the emitted
    operations when the entry point returns, nothing when it fails. *)
Definition transaction (ctx : context) (c : call) (s : storage)
    : failure + storage * list operation :=
  match entry_point ctx c (start s) with
  | Ok _ m => inr (data m, operations m)
  | Abort e _ => inl e
  end.

(** The storage after a call: a failed call leaves it as it was. *)
Definition step (s : storage) (cc : context * call) : storage :=
  match transaction cc.1 cc.2 s with
  | inr (s', _) => s'
  | inl _ => s
  end.

(** The storage after a sequence of calls. *)
Definition exec (s : storage) (calls : list (context * call)) : storage :=
  fold_left step calls s.

(** Whether a call succeeds on a storage. *)
Definition succeeds (ctx : context) (c : call) (s : storage) : bool :=
  match transaction ctx c s with
  | inr _ => true
  | inl _ => false
  end.


(** ** What a successful call does

    [effect ctx s c s' ops]: the call [c] made in context [ctx] on storage
    [s] returns, leaves storage [s'] and emits [ops]. The relation is proved
    below to be exactly the success case of [transaction]. *)

(** The record [swap] stores. *)
Definition new_swap (ctx : context) (p : swap_params) : swap_record :=
  {| issuer := sender ctx;
     fa2 := p_fa2 p;
     objkt_id := p_objkt_id p;
     objkt_amount := p_objkt_amount p;
     xtz_per_objkt := p_xtz_per_objkt p;
     royalties := p_royalties p;
     creator := p_creator p |}.

(** One FA2 transfer of [n] editions of token [id]. *)
Definition token_move (fa2 from to : address) (id n : N) : operation :=
  Transfer [mk_batch from [mk_tx to id n]] 0 fa2.

(** The tez transfers of one purchase, in the order they are emitted. *)
Definition payout (w : swap_record) (s : storage)
    (royalties_amount fee_amount issuer_amount : mutez) : list operation :=
  (if 0 <? royalties_amount then [Send (creator w) royalties_amount] else []) ++
  (if 0 <? fee_amount then [Send (fee_recipient s) fee_amount] else []) ++
  [Send (issuer w) issuer_amount].

(** The payment block of [collect] for a price [P]: nothing for a free
    edition, otherwise the three shares, none of which may overflow. *)
Definition collect_payments (w : swap_record) (s : storage)
    (pay : list operation) : Prop :=
  let P := xtz_per_objkt w in
  (P = 0 /\ pay = []) \/
  (P <> 0 /\
   P * royalties w < mutez_limit /\
   P * fee s < mutez_limit /\
   P * royalties w / 1000 + P * fee s / 1000 <= P /\
   pay = payout w s (P * royalties w / 1000) (P * fee s / 1000)
           (P - P * royalties w / 1000 - P * fee s / 1000)).

(** The recipients of the payment block of [collect] can be sent tez: the
    issuer always, the creator and the fee recipient when their share is not
    zero; a free edition sends nothing. *)
Definition collect_recipients (w : swap_record) (s : storage) : Prop :=
  let P := xtz_per_objkt w in
  P = 0 \/
  (unit_entry_point (issuer w) = true /\
   (0 < P * royalties w / 1000 -> unit_entry_point (creator w) = true) /\
   (0 < P * fee s / 1000 -> unit_entry_point (fee_recipient s) = true)).

Inductive effect (ctx : context) (s : storage)
    : call -> storage -> list operation -> Prop :=
| effect_swap p :
    swaps_paused s = false ->
    amount ctx = 0 ->
    allowed_fa2s s !! p_fa2 p = Some true ->
    0 < p_objkt_amount p ->
    p_royalties p <= 250 ->
    transfer_entry_point (p_fa2 p) = true ->
    effect ctx s (Swap p)
      (set_counter (counter s + 1)
         (set_swaps (insert (counter s) (new_swap ctx p)) s))
      [token_move (p_fa2 p) (sender ctx) (self_address ctx)
                  (p_objkt_id p) (p_objkt_amount p)]
| effect_collect swap_id w pay :
    collects_paused s = false ->
    swaps s !! swap_id = Some w ->
    sender ctx <> issuer w ->
    amount ctx = xtz_per_objkt w ->
    0 < objkt_amount w ->
    collect_payments w s pay ->
    transfer_entry_point (fa2 w) = true ->
    collect_recipients w s ->
    effect ctx s (Collect swap_id)
      (set_swaps (insert swap_id (set_objkt_amount (objkt_amount w - 1) w)) s)
      (pay ++ [token_move (fa2 w) (self_address ctx) (sender ctx)
                          (objkt_id w) 1])
| effect_cancel_swap swap_id w :
    amount ctx = 0 ->
    swaps s !! swap_id = Some w ->
    sender ctx = issuer w ->
    0 < objkt_amount w ->
    transfer_entry_point (fa2 w) = true ->
    effect ctx s (CancelSwap swap_id)
      (set_swaps (delete swap_id) s)
      [token_move (fa2 w) (self_address ctx) (sender ctx)
                  (objkt_id w) (objkt_amount w)]
| effect_update_fee new_fee :
    sender ctx = manager s -> amount ctx = 0 -> new_fee <= 250 ->
    effect ctx s (UpdateFee new_fee) (set_fee new_fee s) []
| effect_update_fee_recipient a :
    sender ctx = manager s -> amount ctx = 0 ->
    effect ctx s (UpdateFeeRecipient a) (set_fee_recipient a s) []
| effect_transfer_manager a :
    sender ctx = manager s -> amount ctx = 0 ->
    effect ctx s (TransferManager a) (set_proposed_manager (Some a) s) []
| effect_accept_manager :
    proposed_manager s = Some (sender ctx) -> amount ctx = 0 ->
    effect ctx s AcceptManager
      (set_proposed_manager None (set_manager (sender ctx) s)) []
| effect_update_metadata k v :
    sender ctx = manager s -> amount ctx = 0 ->
    effect ctx s (UpdateMetadata k v) (set_metadata (insert k v) s) []
| effect_add_fa2 a :
    sender ctx = manager s -> amount ctx = 0 ->
    effect ctx s (AddFa2 a) (set_allowed_fa2s (insert a true) s) []
| effect_remove_fa2 a :
    sender ctx = manager s -> amount ctx = 0 ->
    effect ctx s (RemoveFa2 a) (set_allowed_fa2s (insert a false) s) []
| effect_pause_swaps b :
    sender ctx = manager s -> amount ctx = 0 ->
    effect ctx s (PauseSwaps b) (set_swaps_paused b s) []
| effect_pause_collects b :
    sender ctx = manager s -> amount ctx = 0 ->
    effect ctx s (PauseCollects b) (set_collects_paused b s) [].

(** The five preconditions of [collect]. *)
Definition collect_preconditions (ctx : context) (swap_id : N) (s : storage)
    : Prop :=
  collects_paused s = false /\
  exists w, swaps s !! swap_id = Some w /\
            sender ctx <> issuer w /\
            amount ctx = xtz_per_objkt w /\
            0 < objkt_amount w.

(** The tez a list of operations moves out of the contract. *)
Definition tez_of (op : operation) : N :=
  match op with
  | Send _ v => v
  | Transfer _ v _ => v
  end.

Definition total_tez (ops : list operation) : N :=
  foldr (fun op acc => tez_of op + acc) 0 ops.

(** The keys under which the successful [swap] calls of a sequence store
    their records, in call order: each is the value of [counter] when the
    call runs ([self.data.swaps[self.data.counter] = ...]). *)
Fixpoint assigned_ids (s : storage) (calls : list (context * call))
    : list N :=
  match calls with
  | [] => []
  | cc :: rest =>
      match cc.2, transaction cc.1 cc.2 s with
      | Swap _, inr _ => counter s :: assigned_ids (step s cc) rest
      | _, _ => assigned_ids (step s cc) rest
      end
  end.

(** Whether a call is a successful collect of [swap_id], as a count. *)
Definition collects (swap_id : N) (s : storage) (cc : context * call) : N :=
  match cc.2 with
  | Collect k => if (k =? swap_id) && succeeds cc.1 cc.2 s then 1 else 0
  | _ => 0
  end.

(** How many calls of a sequence are successful collects of [swap_id]. *)
Fixpoint collected (swap_id : N) (s : storage) (calls : list (context * call))
    : N :=
  match calls with
  | [] => 0
  | cc :: rest => collects swap_id s cc + collected swap_id (step s cc) rest
  end.

(** Whether a call is a successful cancellation of [swap_id]. *)
Definition cancels (swap_id : N) (s : storage) (cc : context * call) : bool :=
  match cc.2 with
  | CancelSwap k => (k =? swap_id) && succeeds cc.1 cc.2 s
  | _ => false
  end.

(** Whether some call of a sequence is a successful cancellation of
    [swap_id]. *)
Fixpoint cancelled (swap_id : N) (s : storage) (calls : list (context * call))
    : bool :=
  match calls with
  | [] => false
  | cc :: rest => cancels swap_id s cc || cancelled swap_id (step s cc) rest
  end.

(** What holds of the stored swaps in every state the contract reaches:
    a key is below the counter, the token contract has the [transfer] entry
    point, the royalties are at most 25%. *)
Definition swaps_wf (s : storage) : Prop :=
  forall k w, swaps s !! k = Some w ->
    k < counter s /\ transfer_entry_point (fa2 w) = true /\ royalties w <= 250.

(** The names the specification gives to the failures of the contract:
    each message of the source, filed under the kind of the condition it
    reports. *)
Inductive error_kind :=
| AuthorizationError
| StateError
| ValidationError
| ExternalCallError.

Definition authorization_messages : list string :=
  [ "This can only be executed by the manager";
    "Only the swap issuer can cancel the swap";
    "The collector cannot be the swap issuer";
    "This can only be executed by the proposed manager" ].

Definition state_messages : list string :=
  [ "Swaps are paused";
    "Collects are paused";
    "The provided swap_id doesn't exist";
    "All editions have already been collected";
    "All editions have been collected";
    "No new manager has been proposed" ].

Definition validation_messages : list string :=
  [ "This token type cannot be traded";
    "At least one edition needs to be swapped";
    "The royalties cannot be higher than 25%";
    "The management fee cannot be higher than 25%";
    "The operation does not need tez transfers";
    "The sent tez amount does not coincide with the edition price" ].

Definition error_kind_of (e : failure) : option error_kind :=
  match e with
  | FailWith msg =>
      if existsb (String.eqb msg) authorization_messages
      then Some AuthorizationError
      else if existsb (String.eqb msg) state_messages
      then Some StateError
      else if existsb (String.eqb msg) validation_messages
      then Some ValidationError
      else None
  | OpenSomeFailed => Some ExternalCallError
  | _ => None
  end.

(** ** The compilation target of the source and a few callers *)

Definition objkt : address := "KT1RJ6PbjHpwc3M5rw5s2Nbmefwbuwbdxton".
Definition admin : address := "tz1gnL9CeM5h5kRzWZztFYLypCNnVQZjndBN".
Definition marketplace : address := "KT1Marketplace".
Definition seller : address := "tz1seller".
Definition buyer : address := "tz1buyer".
Definition artist : address := "tz1artist".
Definition successor : address := "tz1successor".

(** A chain where the OBJKT contract is the only FA2 token contract. *)
Definition objkt_chain (a : address) : bool := bool_decide (a = objkt).

(** The implicit accounts take tez, the contracts of this chain do not. *)
Definition implicit_accounts (a : address) : bool := String.prefix "tz" a.

(** [Marketplace(manager, metadata_of_url("ipfs://aaa"), {OBJKT: True}, 25)] *)
Definition target_metadata : gmap string bytes :=
  {[ "" := String.list_byte_of_string "ipfs://aaa" ]}.
Definition target_allowed : gmap address bool := {[ objkt := true ]}.
Definition deployed : storage := init admin target_metadata target_allowed 25.

Definition call_as (who : address) (tez : mutez) : context :=
  {| sender := who; amount := tez; self_address := marketplace |}.

(** Two editions of token 7 at 1000 mutez each, 10% royalties. *)
Definition offer : swap_params :=
  {| p_fa2 := objkt; p_objkt_id := 7; p_objkt_amount := 2;
     p_xtz_per_objkt := 1000; p_royalties := 100; p_creator := artist |}.

Definition listing : context * call := (call_as seller 0, Swap offer).
Definition purchase : context * call := (call_as buyer 1000, Collect 0).
Definition withdrawal : context * call := (call_as seller 0, CancelSwap 0).

(** ** Vocabulary for whole runs: emitted operations, custody, configuration *)

(** The entry points that begin with [check_is_manager]. *)
Definition manager_only (c : call) : bool :=
  match c with
  | UpdateFee _ | UpdateFeeRecipient _ | TransferManager _
  | UpdateMetadata _ _ | AddFa2 _ | RemoveFa2 _
  | PauseSwaps _ | PauseCollects _ => true
  | Swap _ | Collect _ | CancelSwap _ | AcceptManager => false
  end.

(** The entry points that trade: [swap], [collect] and [cancel_swap]. *)
Definition trading (c : call) : bool :=
  match c with
  | Swap _ | Collect _ | CancelSwap _ => true
  | _ => false
  end.

(** Everything in the storage but the swaps and their counter. *)
Definition configuration (s : storage) :=
  (manager s, metadata s, allowed_fa2s s, fee s, fee_recipient s,
   proposed_manager s, swaps_paused s, collects_paused s).

(** The operations the chain keeps of one call: none when it fails. *)
Definition emitted (s : storage) (cc : context * call) : list operation :=
  match transaction cc.1 cc.2 s with
  | inr (_, ops) => ops
  | inl _ => []
  end.

(** The operations of a sequence of calls, in order. *)
Fixpoint exec_ops (s : storage) (calls : list (context * call))
    : list operation :=
  match calls with
  | [] => []
  | cc :: rest => emitted s cc ++ exec_ops (step s cc) rest
  end.

Definition sum_with {A} (f : A -> N) (l : list A) : N :=
  foldr (fun x acc => f x + acc) 0 l.

(** Editions of token [id] of the contract [token_contract] that an operation
    moves to the account [who]. *)
Definition editions_to (who token_contract : address) (id : N)
    (op : operation) : N :=
  match op with
  | Send _ _ => 0
  | Transfer arg _ dest =>
      if bool_decide (dest = token_contract) then
        sum_with (fun b =>
          sum_with (fun x =>
            if bool_decide (to_ x = who /\ token_id x = id)
            then tx_amount x else 0) (txs b)) arg
      else 0
  end.

(** Editions of that token an operation moves out of the account [who]. *)
Definition editions_from (who token_contract : address) (id : N)
    (op : operation) : N :=
  match op with
  | Send _ _ => 0
  | Transfer arg _ dest =>
      if bool_decide (dest = token_contract) then
        sum_with (fun b =>
          if bool_decide (from_ b = who) then
            sum_with (fun x =>
              if bool_decide (token_id x = id) then tx_amount x else 0)
              (txs b)
          else 0) arg
      else 0
  end.

(** Editions of that token one swap record still offers. *)
Definition held (token_contract : address) (id : N) (w : swap_record) : N :=
  if bool_decide (fa2 w = token_contract /\ objkt_id w = id)
  then objkt_amount w else 0.

(** Editions of that token all the stored swaps offer together. *)
Definition escrowed (token_contract : address) (id : N) (s : storage) : N :=
  map_fold (fun _ w acc => held token_contract id w + acc) 0 (swaps s).

(** ** Basic facts about the primitives *)

Lemma split_tokens_inr m q t a :
  split_tokens m q t = inr a <->
  m * q < mutez_limit /\ t <> 0 /\ a = m * q / t.
Proof.
  unfold split_tokens, mutez_mul.
  destruct (N.ltb_spec (m * q) mutez_limit) as [Hlim|Hlim].
  - destruct (N.eqb_spec t 0) as [Ht|Ht]; split.
    + discriminate.
    + intros (_ & Hne & _). contradiction.
    + intros [= <-]. done.
    + intros (_ & _ & ->). done.
  - split; [discriminate|]. intros (Hlt & _). lia.
Qed.

Lemma mutez_sub_inr a b c : mutez_sub a b = inr c <-> b <= a /\ c = a - b.
Proof.
  unfold mutez_sub. destruct (N.leb_spec b a) as [Hle|Hgt]; split.
  - intros [= <-]. done.
  - intros (_ & ->). done.
  - discriminate.
  - intros (Hle & _). lia.
Qed.

Lemma split_tokens_1000 m q :
  m * q < mutez_limit -> split_tokens m q 1000 = inr (m * q / 1000).
Proof. intros H. apply split_tokens_inr. repeat split; [done | lia]. Qed.

Lemma mutez_sub_le a b : b <= a -> mutez_sub a b = inr (a - b).
Proof. intros H. apply mutez_sub_inr. done. Qed.

Lemma split_tokens_inl m q t e :
  split_tokens m q t = inl e ->
  (e = MutezOverflow /\ mutez_limit <= m * q) \/ (e = DivisionByZero /\ t = 0).
Proof.
  unfold split_tokens, mutez_mul.
  destruct (N.ltb_spec (m * q) mutez_limit) as [Hlim|Hlim].
  - destruct (N.eqb_spec t 0) as [Ht|Ht]; [|discriminate].
    intros [= <-]. by right.
  - intros [= <-]. by left.
Qed.

Lemma mutez_sub_inl a b e :
  mutez_sub a b = inl e -> e = MutezUnderflow /\ a < b.
Proof.
  unfold mutez_sub. destruct (N.leb_spec b a); [discriminate|].
  intros [= <-]. done.
Qed.

Lemma as_nat_inl z e : as_nat z = inl e -> e = AsNatFailed /\ (z < 0)%Z.
Proof.
  unfold as_nat. destruct (Z.leb_spec 0 z); [discriminate|].
  intros [= <-]. done.
Qed.

Lemma as_nat_pred n : 0 < n -> as_nat (Z.of_N n - 1) = inr (n - 1).
Proof.
  intros Hn. unfold as_nat.
  destruct (Z.leb_spec 0 (Z.of_N n - 1)) as [Hz|Hz].
  - f_equal. lia.
  - lia.
Qed.

Lemma as_nat_inr z n : as_nat z = inr n -> (0 <= z)%Z /\ n = Z.to_N z.
Proof.
  unfold as_nat. destruct (Z.leb_spec 0 z); [|discriminate].
  intros [= <-]. done.
Qed.

Arguments split_tokens : simpl never.
Arguments mutez_sub : simpl never.
Arguments as_nat : simpl never.

(** Case analysis along the statements of an entry point. *)
Ltac run_M :=
  repeat first
    [ progress simplify_eq/=
    | match goal with
      | H : context [bool_decide ?P] |- _ => destruct (bool_decide_reflect P)
      | H : context [if ?b then _ else _] |- _ => destruct b eqn:?
      | H : context [match ?o with Some _ => _ | None => _ end] |- _ =>
          destruct o eqn:?
      | H : context [match ?o with inl _ => _ | inr _ => _ end] |- _ =>
          destruct o eqn:?
      end ].

Ltac unfold_M :=
  unfold transaction, entry_point, start,
    swap, collect, cancel_swap, update_fee, update_fee_recipient,
    transfer_manager, accept_manager, update_metadata, add_fa2, remove_fa2,
    pause_swaps, pause_collects,
    check_is_manager, check_no_tez_transfer, swaps_item, fa2_transfer,
    contract_transfer, send, contract_unit, emit, bind, read, write, verify,
    when, lift,
    run, ret, fail in *.

(** Boolean tests and primitive results as propositions. *)
Ltac prop_hyps :=
  repeat match goal with
  | H : negb _ = true |- _ => apply negb_true_iff in H
  | H : negb _ = false |- _ => apply negb_false_iff in H
  | H : (_ =? _) = true |- _ => apply N.eqb_eq in H
  | H : (_ =? _) = false |- _ => apply N.eqb_neq in H
  | H : (_ <? _) = true |- _ => apply N.ltb_lt in H
  | H : (_ <? _) = false |- _ => apply N.ltb_ge in H
  | H : (_ <=? _) = true |- _ => apply N.leb_le in H
  | H : (_ <=? _) = false |- _ => apply N.leb_gt in H
  | H : split_tokens _ _ _ = inr _ |- _ =>
      apply split_tokens_inr in H; destruct H as (? & ? & ?)
  | H : mutez_sub _ _ = inr _ |- _ =>
      apply mutez_sub_inr in H; destruct H as (? & ?)
  | H : as_nat _ = inr _ |- _ =>
      apply as_nat_inr in H; destruct H as (? & ?)
  | H : split_tokens _ _ _ = inl _ |- _ =>
      apply split_tokens_inl in H; destruct H as [(? & ?)|(? & ?)]
  | H : mutez_sub _ _ = inl _ |- _ =>
      apply mutez_sub_inl in H; destruct H as (? & ?)
  | H : as_nat _ = inl _ |- _ =>
      apply as_nat_inl in H; destruct H as (? & ?)
  | H : default false ?o = true |- _ =>
      destruct o as [[]|] eqn:?; simpl in H; try discriminate H; clear H
  end.

Lemma effect_collect_eq ctx s swap_id w pay n ops :
  collects_paused s = false ->
  swaps s !! swap_id = Some w ->
  sender ctx <> issuer w ->
  amount ctx = xtz_per_objkt w ->
  0 < objkt_amount w ->
  transfer_entry_point (fa2 w) = true ->
  n = objkt_amount w - 1 ->
  collect_payments w s pay ->
  ops = pay ++ [token_move (fa2 w) (self_address ctx) (sender ctx)
                           (objkt_id w) 1] ->
  collect_recipients w s ->
  effect ctx s (Collect swap_id)
    (set_swaps (insert swap_id (set_objkt_amount n w)) s) ops.
Proof. intros ? ? ? ? ? ? -> ? -> ?. by constructor. Qed.

Lemma ltb_0_true n : 0 < n -> (0 <? n) = true.
Proof. apply N.ltb_lt. Qed.

Lemma ltb_0_false n : n <= 0 -> (0 <? n) = false.
Proof. apply N.ltb_ge. Qed.

Lemma transaction_sound ctx c s s' ops :
  transaction ctx c s = inr (s', ops) -> effect ctx s c s' ops.
Proof.
  intros H. destruct c; unfold_M; run_M; prop_hyps.
  all: try (constructor; auto; fail).
  all: match goal with
       | Hw : swaps ?st !! _ = Some ?w, Hp : xtz_per_objkt ?w <> 0,
         Hr : ?r = (_ * royalties ?w) `div` _, Hf : ?f = (_ * fee ?st) `div` _,
         Hi : ?i = _ - ?f |- _ =>
           eapply effect_collect_eq with (pay := payout w st r f i);
           [done | done | done | done | done | done | lia | | |]
       | Hw : swaps _ !! _ = Some ?w, Hp : xtz_per_objkt ?w = 0 |- _ =>
           eapply effect_collect_eq with (pay := []);
           [done | done | done | done | done | done | lia
           | by left | done | by left]
       end.
  all: match goal with
       | |- collect_payments _ _ _ =>
           right; split; [done|]; subst;
           repeat match goal with H : amount _ = _ |- _ => rewrite H in * end;
           repeat split; try done; lia
       | |- collect_recipients _ _ =>
           right; subst; split; [done|]; split; intros; first [done | lia]
       | |- _ =>
           unfold payout;
           repeat match goal with
           | H : 0 < ?n |- _ => rewrite (ltb_0_true n H)
           | H : ?n <= 0 |- _ => rewrite (ltb_0_false n H)
           end; reflexivity
       end.
Qed.

Lemma transaction_complete ctx c s s' ops :
  effect ctx s c s' ops -> transaction ctx c s = inr (s', ops).
Proof.
  destruct 1; unfold_M; simpl.
  all: repeat match goal with
       | H : _ = _ |- _ => rewrite H; simpl
       | H : 0 < ?n |- _ => rewrite (ltb_0_true n H); simpl
       | H : ?a <= ?b |- context [?a <=? ?b] =>
           rewrite (proj2 (N.leb_le a b) H); simpl
       | |- context [bool_decide (?x = ?x)] =>
           rewrite (bool_decide_eq_true_2 (x = x) eq_refl); simpl
       | H : ?x <> ?y |- context [bool_decide (?x = ?y)] =>
           rewrite (bool_decide_eq_false_2 (x = y) H); simpl
       | |- context [bool_decide (is_Some (Some ?x))] =>
           rewrite (bool_decide_eq_true_2 (is_Some (Some x)) (mk_is_Some _ _ eq_refl)); simpl
       end.
  all: try reflexivity.
  rewrite N.eqb_refl, (as_nat_pred _ H3). simpl.
  destruct H4 as [[HP ->]|(HP & Hr & Hf & Hle & ->)].
  - rewrite HP. reflexivity.
  - rewrite (proj2 (N.eqb_neq _ _) HP). simpl.
    assert (Hr' : (xtz_per_objkt w * royalties w) `div` 1000 <= xtz_per_objkt w).
    { revert Hle. generalize ((xtz_per_objkt w * royalties w) `div` 1000).
      generalize ((xtz_per_objkt w * fee s) `div` 1000). lia. }
    assert (Hf' : (xtz_per_objkt w * fee s) `div` 1000 <=
                  xtz_per_objkt w - (xtz_per_objkt w * royalties w) `div` 1000).
    { revert Hle. generalize ((xtz_per_objkt w * royalties w) `div` 1000).
      generalize ((xtz_per_objkt w * fee s) `div` 1000). lia. }
    destruct H6 as [?|(Hui & Huc & Huf)]; [done|].
    rewrite (split_tokens_1000 _ _ Hr). unfold payout. simpl.
    destruct (N.ltb_spec 0 ((xtz_per_objkt w * royalties w) `div` 1000))
      as [Ha|Ha]; simpl; [rewrite (Huc Ha); simpl|];
      rewrite (split_tokens_1000 _ _ Hf); simpl;
      (destruct (N.ltb_spec 0 ((xtz_per_objkt w * fee s) `div` 1000))
         as [Hb|Hb]; simpl; [rewrite (Huf Hb); simpl|]);
      rewrite (mutez_sub_le _ _ Hr'); simpl;
      rewrite (mutez_sub_le _ _ Hf'); simpl;
      rewrite Hui; reflexivity.
Qed.

Lemma transaction_effect ctx c s s' ops :
  transaction ctx c s = inr (s', ops) <-> effect ctx s c s' ops.
Proof. split; [apply transaction_sound | apply transaction_complete]. Qed.

(** ** Steps and sequences of calls *)

Lemma step_effect s cc :
  step s cc = s \/ exists ops, effect cc.1 s cc.2 (step s cc) ops.
Proof.
  unfold step. destruct (transaction cc.1 cc.2 s) as [e|[s' ops]] eqn:Ht.
  - by left.
  - right. exists ops. by apply transaction_sound.
Qed.

Lemma step_failed ctx c s e :
  transaction ctx c s = inl e -> step s (ctx, c) = s.
Proof. unfold step. simpl. by intros ->. Qed.

Lemma step_done ctx c s s' ops :
  transaction ctx c s = inr (s', ops) -> step s (ctx, c) = s'.
Proof. unfold step. simpl. by intros ->. Qed.

Lemma succeeds_effect ctx c s :
  succeeds ctx c s = true <-> exists s' ops, effect ctx s c s' ops.
Proof.
  unfold succeeds. split.
  - destruct (transaction ctx c s) as [e|[s' ops]] eqn:Ht; [discriminate|].
    intros _. exists s', ops. by apply transaction_sound.
  - intros (s' & ops & He). by rewrite (transaction_complete _ _ _ _ _ He).
Qed.

Lemma exec_cons s cc calls : exec s (cc :: calls) = exec (step s cc) calls.
Proof. reflexivity. Qed.

Lemma exec_app s l1 l2 : exec s (l1 ++ l2) = exec (exec s l1) l2.
Proof. unfold exec. by rewrite fold_left_app. Qed.

(** A property of the initial storage that every step keeps holds after
    every sequence of calls. *)
Lemma exec_ind (P : storage -> Prop) s calls :
  P s -> (forall s' cc, P s' -> P (step s' cc)) -> P (exec s calls).
Proof.
  intros H0 Hstep. revert s H0.
  induction calls as [|cc calls IH]; intros s H0; [done|].
  rewrite exec_cons. apply IH. by apply Hstep.
Qed.

(** *** The counter *)

Lemma step_counter_swap ctx p s r :
  transaction ctx (Swap p) s = inr r ->
  counter (step s (ctx, Swap p)) = counter s + 1.
Proof.
  destruct r as [s' ops]. intros Ht. rewrite (step_done _ _ _ _ _ Ht).
  apply transaction_sound in Ht. by inversion Ht.
Qed.

Lemma step_counter_other ctx c s :
  (forall p, c <> Swap p) -> counter (step s (ctx, c)) = counter s.
Proof.
  intros Hc. destruct (step_effect s (ctx, c)) as [->|[ops He]]; [done|].
  simpl in He. inversion He; subst; try done. by destruct (Hc p).
Qed.

Lemma step_counter_mono s cc : counter s <= counter (step s cc).
Proof.
  destruct (step_effect s cc) as [->|[ops He]]; [lia|].
  inversion He; simpl; lia.
Qed.

Lemma exec_counter_mono s calls : counter s <= counter (exec s calls).
Proof.
  revert s. induction calls as [|cc calls IH]; intros s; [simpl; lia|].
  rewrite exec_cons. pose proof (step_counter_mono s cc).
  specialize (IH (step s cc)). lia.
Qed.

(** *** The invariant of the stored swaps *)

Lemma init_wf mgr md allowed f : swaps_wf (init mgr md allowed f).
Proof. intros k w. simpl. by rewrite lookup_empty. Qed.

Lemma step_wf s cc : swaps_wf s -> swaps_wf (step s cc).
Proof.
  intros Hwf. destruct (step_effect s cc) as [->|[ops He]]; [done|].
  destruct cc as [ctx c]. simpl in He. inversion He; subst; try exact Hwf.
  - (* swap *)
    intros k w. simpl. rewrite lookup_insert. case_decide as Hk.
    + intros [= <-]. subst. simpl. repeat split; [lia|done|done].
    + intros Hw. destruct (Hwf k w Hw) as (? & ? & ?). repeat split; [lia|done|done].
  - (* collect *)
    intros k w'. simpl. rewrite lookup_insert. case_decide as Hk.
    + intros [= <-]. subst. simpl.
      match goal with Hw : swaps s !! _ = Some _ |- _ =>
        destruct (Hwf _ _ Hw) as (? & ? & ?) end. done.
    + apply Hwf.
  - (* cancel_swap *)
    intros k w'. simpl. rewrite lookup_delete. case_decide; [done|apply Hwf].
Qed.

Lemma exec_wf s calls : swaps_wf s -> swaps_wf (exec s calls).
Proof. intros H. apply exec_ind; [done|]. intros. by apply step_wf. Qed.

Lemma reachable_wf mgr md allowed f calls :
  swaps_wf (exec (init mgr md allowed f) calls).
Proof. apply exec_wf, init_wf. Qed.

(** ** The payment split of [collect] *)

Lemma total_tez_app l1 l2 : total_tez (l1 ++ l2) = total_tez l1 + total_tez l2.
Proof.
  induction l1 as [|op l1 IH]; simpl; [lia|].
  unfold total_tez in *. simpl. rewrite IH. lia.
Qed.

Lemma total_tez_payout w s r f i : total_tez (payout w s r f i) = r + f + i.
Proof.
  unfold payout.
  destruct (N.ltb_spec 0 r), (N.ltb_spec 0 f); unfold total_tez; simpl; lia.
Qed.

(** A rate of at most 250 per mille takes at most a quarter. *)
Lemma quarter_share P r : r <= 250 -> 4 * (P * r / 1000) <= P.
Proof.
  intros Hr.
  assert (H1 : 1000 * (P * r / 1000) <= P * r) by apply N.Div0.mul_div_le.
  assert (H2 : P * r <= P * 250) by (apply N.mul_le_mono_l; lia).
  revert H1 H2. generalize (P * r / 1000). intros x. lia.
Qed.

(** C1. For every successful collect on a swap with price P, royalty rate r
    and current fee rate f, the royalty amount is floor(P*r/1000), the fee
    amount is floor(P*f/1000), the issuer amount is P minus both, the three
    add up to P exactly, and these are the tez the call sends (nothing is
    sent for a free edition, where all three are zero). *)
Theorem collect_split_conservation ctx swap_id s s' ops w :
  swaps s !! swap_id = Some w ->
  transaction ctx (Collect swap_id) s = inr (s', ops) ->
  let P := xtz_per_objkt w in
  let royaltyAmount := P * royalties w / 1000 in
  let feeAmount := P * fee s / 1000 in
  exists issuerAmount,
    (Z.of_N issuerAmount =
       Z.of_N P - Z.of_N royaltyAmount - Z.of_N feeAmount)%Z /\
    royaltyAmount + feeAmount + issuerAmount = P /\
    ops = (if P =? 0 then []
           else payout w s royaltyAmount feeAmount issuerAmount) ++
          [token_move (fa2 w) (self_address ctx) (sender ctx) (objkt_id w) 1] /\
    total_tez ops = P.
Proof.
  intros Hw Ht. apply transaction_sound in Ht. inversion Ht; subst.
  assert (w0 = w) as -> by congruence.
  match goal with H : collect_payments _ _ _ |- _ =>
    destruct H as [[HP ->]|(HP & Hr & Hf & Hle & ->)] end; simpl.
  - exists 0. rewrite HP. simpl. repeat split; try done.
  - exists (xtz_per_objkt w - xtz_per_objkt w * royalties w / 1000
            - xtz_per_objkt w * fee s / 1000).
    rewrite (proj2 (N.eqb_neq _ _) HP).
    rewrite total_tez_app, total_tez_payout.
    revert Hle. generalize (xtz_per_objkt w * royalties w / 1000).
    generalize (xtz_per_objkt w * fee s / 1000). intros a b Hle.
    repeat split; try done; unfold total_tez; simpl; lia.
Qed.

(** The issuer is sent what is left of a nonzero price. *)
Lemma collect_pays_issuer ctx swap_id s s' ops w :
  swaps s !! swap_id = Some w ->
  xtz_per_objkt w <> 0 ->
  transaction ctx (Collect swap_id) s = inr (s', ops) ->
  let P := xtz_per_objkt w in
  P * royalties w / 1000 + P * fee s / 1000 <= P /\
  Send (issuer w) (P - P * royalties w / 1000 - P * fee s / 1000) ∈ ops.
Proof.
  intros Hw HP Ht. apply transaction_sound in Ht. inversion Ht; subst.
  assert (w0 = w) as -> by congruence.
  match goal with H : collect_payments _ _ _ |- _ =>
    destruct H as [[HP' _]|(_ & _ & _ & Hle & ->)] end; [done|].
  split; [done|]. unfold payout. set_solver.
Qed.

(** C10. For a price P > 0 and rates r, f of at most 250, the issuer share
    P - floor(P*r/1000) - floor(P*f/1000) is strictly positive; the two
    mutez subtractions that compute it do not underflow; and a successful
    collect of such a swap sends the issuer that nonzero amount. *)
Theorem issuer_share_positive (P r f : N) :
  0 < P -> r <= 250 -> f <= 250 ->
  (0 < Z.of_N P - Z.of_N (P * r / 1000) - Z.of_N (P * f / 1000))%Z /\
  (forall roy fa,
     split_tokens P r 1000 = inr roy ->
     split_tokens P f 1000 = inr fa ->
     exists rest issuer_amount,
       mutez_sub P roy = inr rest /\
       mutez_sub rest fa = inr issuer_amount /\
       0 < issuer_amount) /\
  (forall ctx swap_id s w,
     swaps s !! swap_id = Some w ->
     xtz_per_objkt w = P -> royalties w = r -> fee s = f ->
     transaction ctx (Collect swap_id) s <> inl MutezUnderflow /\
     forall s' ops,
       transaction ctx (Collect swap_id) s = inr (s', ops) ->
       exists v, 0 < v /\
         (Z.of_N v = Z.of_N P - Z.of_N (P * r / 1000)
                     - Z.of_N (P * f / 1000))%Z /\
         Send (issuer w) v ∈ ops).
Proof.
  intros HP Hr Hf.
  pose proof (quarter_share P r Hr) as Qr.
  pose proof (quarter_share P f Hf) as Qf.
  split; [lia|]. split.
  - intros roy fa Hroy Hfa.
    apply split_tokens_inr in Hroy as (_ & _ & ->).
    apply split_tokens_inr in Hfa as (_ & _ & ->).
    exists (P - P * r / 1000), (P - P * r / 1000 - P * f / 1000).
    rewrite !mutez_sub_le by lia. repeat split. lia.
  - intros ctx swap_id s w Hw <- <- <-. split.
    + intros Ht. unfold_M. run_M; prop_hyps.
      all: try discriminate.
      all: subst; lia.
    + intros s' ops Ht.
      destruct (collect_pays_issuer _ _ _ _ _ _ Hw ltac:(lia) Ht) as [Hle Hin].
      eexists. split; [|split; [|exact Hin]]; lia.
Qed.

(** ** The guards of [collect] *)

(** A failed [collect] has written nothing when it fails: every check comes
    before the only write to the storage. *)
Lemma collect_abort_data ctx swap_id s e m :
  collect ctx swap_id (start s) = Abort e m -> data m = s.
Proof. intros H. unfold_M. run_M; reflexivity. Qed.

(** The message of the first check of [collect] that fails. *)
Lemma collect_failure_messages ctx swap_id s :
  (collects_paused s = true ->
     transaction ctx (Collect swap_id) s = inl (FailWith "Collects are paused")) /\
  (collects_paused s = false -> swaps s !! swap_id = None ->
     transaction ctx (Collect swap_id) s =
       inl (FailWith "The provided swap_id doesn't exist")) /\
  (forall w, collects_paused s = false -> swaps s !! swap_id = Some w ->
     (sender ctx = issuer w ->
        transaction ctx (Collect swap_id) s =
          inl (FailWith "The collector cannot be the swap issuer")) /\
     (sender ctx <> issuer w -> amount ctx <> xtz_per_objkt w ->
        transaction ctx (Collect swap_id) s =
          inl (FailWith
            "The sent tez amount does not coincide with the edition price")) /\
     (sender ctx <> issuer w -> amount ctx = xtz_per_objkt w ->
      objkt_amount w = 0 ->
        transaction ctx (Collect swap_id) s =
          inl (FailWith "All editions have already been collected"))).
Proof.
  split; [|split].
  - intros Hp. unfold_M. simpl. by rewrite Hp.
  - intros Hp Hw. unfold_M.
    repeat (simpl; first [rewrite Hp | rewrite Hw]). done.
  - intros w Hp Hw. split; [|split].
    + intros Hi. unfold_M.
      repeat (simpl; first [rewrite Hp | rewrite Hw
                           | rewrite (bool_decide_eq_true_2 _ Hi)]).
      done.
    + intros Hi Ha. unfold_M.
      repeat (simpl; first [rewrite Hp | rewrite Hw
                           | rewrite (bool_decide_eq_false_2 _ Hi)
                           | rewrite (proj2 (N.eqb_neq _ _) Ha)]).
      done.
    + intros Hi Ha H0. unfold_M.
      repeat (simpl; first [rewrite Hp | rewrite Hw
                           | rewrite (bool_decide_eq_false_2 _ Hi)
                           | rewrite Ha, N.eqb_refl | rewrite H0]).
      done.
Qed.

(** C4. [collect] succeeds only when collects are not paused, the swap id
    exists, the caller is not the issuer, the payment equals the price
    exactly and at least one edition remains; when one of these fails the
    call fails, the storage is unchanged (also at the point of failure) and
    no operation is kept. *)
Theorem collect_guarded ctx swap_id s :
  (succeeds ctx (Collect swap_id) s = true ->
     collect_preconditions ctx swap_id s) /\
  (~ collect_preconditions ctx swap_id s ->
     (exists e, transaction ctx (Collect swap_id) s = inl e) /\
     step s (ctx, Collect swap_id) = s /\
     (forall e m, collect ctx swap_id (start s) = Abort e m -> data m = s)) /\
  (forall w, swaps s !! swap_id = Some w ->
     amount ctx <> xtz_per_objkt w ->
     succeeds ctx (Collect swap_id) s = false).
Proof.
  assert (Hpre : succeeds ctx (Collect swap_id) s = true ->
                 collect_preconditions ctx swap_id s).
  { intros (s' & ops & He)%succeeds_effect. inversion He; subst.
    split; [done|]. eauto 10. }
  split; [done|]. split.
  - intros Hn. unfold succeeds in Hpre.
    destruct (transaction ctx (Collect swap_id) s) as [e|r] eqn:Ht.
    + split; [eauto|]. split.
      * unfold step. simpl. by rewrite Ht.
      * intros e' m. apply collect_abort_data.
    + destruct Hn. by apply Hpre.
  - intros w Hw Hne. destruct (succeeds ctx (Collect swap_id) s) eqn:Hs; [|done].
    destruct (Hpre eq_refl) as (_ & w' & Hw' & _ & Heq & _). congruence.
Qed.

(** ** Swap identifiers *)

(** From a storage with counter [c], the assigned identifiers are
    [c, c+1, ...] and the counter ends just above the last one. *)
Lemma assigned_ids_from s calls :
  assigned_ids s calls =
    (fun i => counter s + N.of_nat i) <$> seq 0 (length (assigned_ids s calls))
  /\ counter (exec s calls) = counter s + N.of_nat (length (assigned_ids s calls)).
Proof.
  revert s. induction calls as [|[ctx c] calls IH]; intros s.
  - simpl. split; [done|lia].
  - rewrite exec_cons. destruct (IH (step s (ctx, c))) as [IH1 IH2].
    assert (Hother : counter (step s (ctx, c)) = counter s ->
      assigned_ids (step s (ctx, c)) calls =
        (fun i => counter s + N.of_nat i) <$>
          seq 0 (length (assigned_ids (step s (ctx, c)) calls)) /\
      counter (exec (step s (ctx, c)) calls) =
        counter s + N.of_nat (length (assigned_ids (step s (ctx, c)) calls))).
    { intros Hc. rewrite Hc in IH1, IH2. done. }
    simpl. destruct c;
      try (apply Hother, step_counter_other; intros; discriminate).
    destruct (transaction ctx (Swap params) s) as [e|r] eqn:Ht.
    + apply Hother. by rewrite (step_failed _ _ _ _ Ht).
    + pose proof (step_counter_swap _ _ _ _ Ht) as Hc.
      rewrite Hc in IH1, IH2. simpl. split.
      * rewrite N.add_0_r. f_equal. rewrite IH1 at 1.
        rewrite <- fmap_S_seq, <- list_fmap_compose.
        apply list_fmap_ext. intros _ i _. simpl. lia.
      * rewrite IH2. lia.
Qed.

(** C2. In every sequence of calls on a freshly initialised contract, the
    identifiers assigned by the successful [swap] calls are 0, 1, 2, ... in
    call order, whatever cancellations or other calls lie between them; every
    call leaves the counter unchanged or, for a successful [swap], one higher;
    and a successful [swap] stores its record under the counter value, a key
    under which nothing is stored and nothing was ever stored before. *)
Theorem swap_ids_sequential mgr md allowed f calls :
  let s0 := init mgr md allowed f in
  let ids := assigned_ids s0 calls in
  ids = N.of_nat <$> seq 0 (length ids) /\
  NoDup ids /\
  counter (exec s0 calls) = N.of_nat (length ids) /\
  (forall cc,
     counter (exec s0 calls) <= counter (step (exec s0 calls) cc) /\
     (counter (step (exec s0 calls) cc) = counter (exec s0 calls) \/
      (exists p, cc.2 = Swap p) /\ succeeds cc.1 cc.2 (exec s0 calls) = true /\
      counter (step (exec s0 calls) cc) = counter (exec s0 calls) + 1)) /\
  (forall ctx p s' ops,
     transaction ctx (Swap p) (exec s0 calls) = inr (s', ops) ->
     counter s' = counter (exec s0 calls) + 1 /\
     swaps s' !! counter (exec s0 calls) = Some (new_swap ctx p) /\
     forall k, counter (exec s0 calls) <= k ->
       forall pre post, calls = pre ++ post -> swaps (exec s0 pre) !! k = None).
Proof.
  intros s0 ids.
  destruct (assigned_ids_from s0 calls) as [Hids Hc]. fold ids in Hids, Hc.
  assert (Hids' : ids = N.of_nat <$> seq 0 (length ids)).
  { rewrite Hids at 1. apply list_fmap_ext. intros _ i _. simpl. lia. }
  split; [done|]. split.
  { rewrite Hids'. apply NoDup_fmap_2; [apply _|apply NoDup_seq]. }
  split; [simpl in Hc; lia|]. split.
  - intros cc. split; [apply step_counter_mono|].
    destruct cc as [ctx c]. simpl.
    destruct (step_effect (exec s0 calls) (ctx, c)) as [->|[ops He]]; [by left|].
    simpl in He. inversion He; subst; try (by left).
    right. split; [eauto|]. split; [|done].
    apply succeeds_effect. eauto.
  - intros ctx p s' ops Ht. apply transaction_sound in Ht.
    inversion Ht; subst. simpl. split; [done|]. split.
    + by rewrite lookup_insert_eq.
    + intros k Hk pre post ->.
      destruct (swaps (exec s0 pre) !! k) as [w|] eqn:Hw; [|done].
      destruct (reachable_wf mgr md allowed f pre k w Hw) as (Hlt & _).
      fold s0 in Hlt. rewrite exec_app in Hk.
      pose proof (exec_counter_mono (exec s0 pre) post). lia.
Qed.

(** ** The editions of one swap along a sequence of calls *)

Lemma collects_failed id s ctx c e :
  transaction ctx c s = inl e -> collects id s (ctx, c) = 0.
Proof.
  intros Ht. unfold collects, succeeds. simpl. rewrite Ht.
  destruct c; try done. by rewrite andb_false_r.
Qed.

Lemma collects_done id s ctx k r :
  transaction ctx (Collect k) s = inr r ->
  collects id s (ctx, Collect k) = if k =? id then 1 else 0.
Proof.
  intros Ht. unfold collects, succeeds. simpl. rewrite Ht.
  by rewrite andb_true_r.
Qed.

(** One call, seen from a stored swap: the record is kept, or loses one
    edition to a successful collect, or is removed by its cancellation. *)
Lemma step_entry id s cc w :
  id < counter s -> swaps s !! id = Some w ->
  (swaps (step s cc) !! id = Some w /\ collects id s cc = 0) \/
  (0 < objkt_amount w /\
   swaps (step s cc) !! id = Some (set_objkt_amount (objkt_amount w - 1) w) /\
   collects id s cc = 1) \/
  (0 < objkt_amount w /\ swaps (step s cc) !! id = None /\
   collects id s cc = 0).
Proof.
  intros Hid Hw. destruct cc as [ctx c].
  destruct (transaction ctx c s) as [e|[s' ops]] eqn:Ht.
  { left. rewrite (step_failed _ _ _ _ Ht). split; [done|].
    by eapply collects_failed. }
  rewrite (step_done _ _ _ _ _ Ht).
  pose proof (transaction_sound _ _ _ _ _ Ht) as He.
  inversion He; subst; simpl; try (by left).
  - left. split; [|done]. rewrite lookup_insert_ne; [done|lia].
  - rewrite (collects_done _ _ _ _ _ Ht).
    destruct (N.eqb_spec swap_id id) as [->|Hne].
    + right. left. assert (w0 = w) as -> by congruence.
      by rewrite lookup_insert_eq.
    + left. by rewrite lookup_insert_ne.
  - destruct (decide (swap_id = id)) as [->|Hne].
    + right. right. assert (w0 = w) as -> by congruence.
      by rewrite lookup_delete_eq.
    + left. by rewrite lookup_delete_ne.
Qed.

(** An identifier below the counter that has no record never gets one. *)
Lemma step_entry_none id s cc :
  id < counter s -> swaps s !! id = None ->
  swaps (step s cc) !! id = None /\ collects id s cc = 0.
Proof.
  intros Hid Hw. destruct cc as [ctx c].
  destruct (transaction ctx c s) as [e|[s' ops]] eqn:Ht.
  { rewrite (step_failed _ _ _ _ Ht). split; [done|].
    by eapply collects_failed. }
  rewrite (step_done _ _ _ _ _ Ht).
  pose proof (transaction_sound _ _ _ _ _ Ht) as He.
  inversion He; subst; simpl; try done.
  - split; [|done]. rewrite lookup_insert_ne; [done|lia].
  - rewrite (collects_done _ _ _ _ _ Ht).
    destruct (N.eqb_spec swap_id id) as [->|Hne]; [congruence|].
    by rewrite lookup_insert_ne.
  - split; [|done]. rewrite lookup_delete. by case_decide.
Qed.

Lemma exec_entry_none id calls s :
  id < counter s -> swaps s !! id = None ->
  swaps (exec s calls) !! id = None /\ collected id s calls = 0.
Proof.
  revert s. induction calls as [|cc calls IH]; intros s Hid Hw; [done|].
  rewrite exec_cons. simpl.
  destruct (step_entry_none id s cc Hid Hw) as [Hw' ->].
  pose proof (step_counter_mono s cc).
  apply IH; [lia|done].
Qed.

Lemma set_objkt_amount_twice n k w :
  set_objkt_amount n (set_objkt_amount k w) = set_objkt_amount n w.
Proof. reflexivity. Qed.

Lemma exec_entry id calls s w :
  id < counter s -> swaps s !! id = Some w ->
  collected id s calls <= objkt_amount w /\
  forall w', swaps (exec s calls) !! id = Some w' ->
    w' = set_objkt_amount (objkt_amount w - collected id s calls) w.
Proof.
  revert s w. induction calls as [|cc calls IH]; intros s w Hid Hw.
  - simpl. split; [lia|]. intros w' Hw'. rewrite N.sub_0_r.
    simpl in Hw'. assert (w' = w) as -> by congruence. by destruct w.
  - rewrite exec_cons. simpl. pose proof (step_counter_mono s cc) as Hc.
    destruct (step_entry id s cc w Hid Hw)
      as [[Hs ->]|[(Hpos & Hs & ->)|(Hpos & Hs & ->)]].
    + apply IH; [lia|done].
    + destruct (IH (step s cc) _ ltac:(lia) Hs) as [Hle Hfin]. simpl in Hle.
      split; [lia|]. intros w' Hw'. rewrite (Hfin w' Hw'). simpl.
      rewrite set_objkt_amount_twice. f_equal. lia.
    + destruct (exec_entry_none id calls (step s cc) ltac:(lia) Hs) as [Hn ->].
      split; [lia|]. intros w' Hw'. congruence.
Qed.

Lemma collect_exhausted ctx id s w :
  swaps s !! id = Some w -> objkt_amount w = 0 ->
  succeeds ctx (Collect id) s = false.
Proof.
  intros Hw H0. destruct (succeeds ctx (Collect id) s) eqn:Hs; [|done].
  apply succeeds_effect in Hs as (s' & ops & He). inversion He; subst.
  assert (w0 = w) as -> by congruence. lia.
Qed.

Lemma cancel_exhausted ctx id s w :
  swaps s !! id = Some w -> objkt_amount w = 0 ->
  succeeds ctx (CancelSwap id) s = false.
Proof.
  intros Hw H0. destruct (succeeds ctx (CancelSwap id) s) eqn:Hs; [|done].
  apply succeeds_effect in Hs as (s' & ops & He). inversion He; subst.
  assert (w0 = w) as -> by congruence. lia.
Qed.

Lemma collect_as_nat ctx id s :
  transaction ctx (Collect id) s <> inl AsNatFailed.
Proof.
  intros Ht. unfold_M. run_M; prop_hyps; try discriminate. all: lia.
Qed.

Lemma swap_done ctx p s :
  succeeds ctx (Swap p) s = true ->
  step s (ctx, Swap p) =
    set_counter (counter s + 1)
      (set_swaps (insert (counter s) (new_swap ctx p)) s).
Proof.
  intros (s' & ops & He)%succeeds_effect.
  rewrite (step_done _ _ _ _ _ (transaction_complete _ _ _ _ _ He)).
  by inversion He.
Qed.

Lemma cancels_failed id s ctx c e :
  transaction ctx c s = inl e -> cancels id s (ctx, c) = false.
Proof.
  intros Ht. unfold cancels, succeeds. simpl. rewrite Ht.
  destruct c; try done. by rewrite andb_false_r.
Qed.

Lemma cancels_done id s ctx k r :
  transaction ctx (CancelSwap k) s = inr r ->
  cancels id s (ctx, CancelSwap k) = (k =? id).
Proof.
  intros Ht. unfold cancels, succeeds. simpl. rewrite Ht.
  by rewrite andb_true_r.
Qed.

(** One call, seen from a stored swap, with the cancellation told apart:
    the call cancels the swap and the record is gone, or it does not and the
    record is there, with one edition less exactly when the call is a
    successful collect of it. *)
Lemma step_entry_cancel id s cc w :
  id < counter s -> swaps s !! id = Some w ->
  (cancels id s cc = true /\ swaps (step s cc) !! id = None) \/
  (cancels id s cc = false /\
   swaps (step s cc) !! id
     = Some (set_objkt_amount (objkt_amount w - collects id s cc) w)).
Proof.
  intros Hid Hw. destruct cc as [ctx c].
  assert (Hsame : set_objkt_amount (objkt_amount w - 0) w = w).
  { rewrite N.sub_0_r. by destruct w. }
  destruct (transaction ctx c s) as [e|[s' ops]] eqn:Ht.
  { right. rewrite (step_failed _ _ _ _ Ht), (collects_failed _ _ _ _ _ Ht).
    rewrite (cancels_failed _ _ _ _ _ Ht), Hsame. done. }
  rewrite (step_done _ _ _ _ _ Ht).
  assert (Hsucc : succeeds ctx c s = true) by (unfold succeeds; by rewrite Ht).
  pose proof (transaction_sound _ _ _ _ _ Ht) as He.
  inversion He; subst; unfold collects, cancels; simpl;
    rewrite ?Hsucc, ?andb_true_r; try (right; by rewrite Hsame).
  - right. rewrite Hsame. split; [done|]. rewrite lookup_insert_ne; [done|lia].
  - right. split; [done|].
    destruct (N.eqb_spec swap_id id) as [->|Hne].
    + assert (w0 = w) as -> by congruence. by rewrite lookup_insert_eq.
    + rewrite Hsame. by rewrite lookup_insert_ne.
  - destruct (N.eqb_spec swap_id id) as [->|Hne].
    + left. by rewrite lookup_delete_eq.
    + right. rewrite Hsame. by rewrite lookup_delete_ne.
Qed.

(** A sequence of calls, seen from a stored swap: the record is gone
    exactly when one of the calls cancelled it, and otherwise it is the
    original record less one edition per successful collect. *)
Lemma exec_entry_cancel id calls s w :
  id < counter s -> swaps s !! id = Some w ->
  swaps (exec s calls) !! id =
    if cancelled id s calls then None
    else Some (set_objkt_amount (objkt_amount w - collected id s calls) w).
Proof.
  revert s w. induction calls as [|cc calls IH]; intros s w Hid Hw.
  - simpl. rewrite N.sub_0_r. rewrite Hw. by destruct w.
  - rewrite exec_cons. simpl. pose proof (step_counter_mono s cc) as Hc.
    destruct (step_entry_cancel id s cc w Hid Hw) as [[-> Hs]|[-> Hs]].
    + simpl. by destruct (exec_entry_none id calls (step s cc) ltac:(lia) Hs).
    + simpl. rewrite (IH (step s cc) _ ltac:(lia) Hs). simpl.
      destruct (cancelled id (step s cc) calls); [done|].
      rewrite set_objkt_amount_twice. do 2 f_equal. lia.
Qed.

(** C3. A swap opened with N editions and collected successfully n times by
    the calls that follow holds N - n editions, with n at most N, so the
    count never goes below zero: its record is there with exactly N - n
    editions unless one of the calls cancelled it, in which case it is
    gone. Each successful collect keeps the record and takes exactly one
    edition from it, leaving every other record alone; the decrement of
    [collect] is never applied to zero; and a collect of a swap with no
    edition left fails. *)
Theorem remaining_editions mgr md allowed f pre ctx p calls :
  let s0 := exec (init mgr md allowed f) pre in
  let id := counter s0 in
  let s1 := step s0 (ctx, Swap p) in
  let n := collected id s1 calls in
  succeeds ctx (Swap p) s0 = true ->
  swaps s1 !! id = Some (new_swap ctx p) /\
  n <= p_objkt_amount p /\
  (forall w, swaps (exec s1 calls) !! id = Some w ->
     objkt_amount w = p_objkt_amount p - n /\
     (Z.of_N (objkt_amount w) = Z.of_N (p_objkt_amount p) - Z.of_N n)%Z) /\
  (forall ctx' k, transaction ctx' (Collect k) (exec s1 calls)
                  <> inl AsNatFailed) /\
  (forall ctx' k w, swaps (exec s1 calls) !! k = Some w ->
     objkt_amount w = 0 ->
     succeeds ctx' (Collect k) (exec s1 calls) = false) /\
  swaps (exec s1 calls) !! id =
    (if cancelled id s1 calls then None
     else Some (set_objkt_amount (p_objkt_amount p - n) (new_swap ctx p))) /\
  (forall ctx' k w s' ops,
     swaps (exec s1 calls) !! k = Some w ->
     transaction ctx' (Collect k) (exec s1 calls) = inr (s', ops) ->
     1 <= objkt_amount w /\
     swaps s' !! k = Some (set_objkt_amount (objkt_amount w - 1) w) /\
     forall j, j <> k -> swaps s' !! j = swaps (exec s1 calls) !! j).
Proof.
  intros s0 id s1 n Hs.
  pose proof (swap_done _ _ _ Hs) as Hs1. fold s1 id in Hs1.
  assert (Hw : swaps s1 !! id = Some (new_swap ctx p)).
  { rewrite Hs1. simpl. by rewrite lookup_insert_eq. }
  assert (Hid : id < counter s1) by (rewrite Hs1; simpl; unfold id; lia).
  destruct (exec_entry id calls s1 _ Hid Hw) as [Hle Hfin]. fold n in Hle, Hfin.
  simpl in Hle. split; [done|]. split; [done|]. split.
  - intros w Hw'. rewrite (Hfin w Hw'). simpl. lia.
  - split; [intros; apply collect_as_nat|].
    split; [intros ctx' k w; apply collect_exhausted|]. split.
    + apply (exec_entry_cancel id calls s1 _ Hid Hw).
    + intros ctx' k w s' ops Hk Ht. apply transaction_sound in Ht.
      inversion Ht; subst. assert (w0 = w) as -> by congruence. simpl.
      split; [lia|]. split; [apply lookup_insert_eq|].
      intros j Hj. by apply lookup_insert_ne.
Qed.

(** C5. In a state the contract reaches, a swap with no edition left stays:
    after any further calls its record is still there, unchanged and with
    zero editions, and collecting or cancelling it fails. *)
Theorem exhausted_swap_persists mgr md allowed f pre id w calls :
  let s := exec (init mgr md allowed f) pre in
  swaps s !! id = Some w ->
  objkt_amount w = 0 ->
  swaps (exec s calls) !! id = Some w /\
  (exists w', swaps (exec s calls) !! id = Some w' /\ objkt_amount w' = 0) /\
  forall ctx,
    succeeds ctx (Collect id) (exec s calls) = false /\
    succeeds ctx (CancelSwap id) (exec s calls) = false.
Proof.
  intros s Hw H0.
  assert (Hkeep : swaps (exec s calls) !! id = Some w).
  { destruct (reachable_wf mgr md allowed f pre id w Hw) as (Hid & _).
    fold s in Hid. revert Hid Hw. generalize s. clear s.
    induction calls as [|cc calls IH]; intros s Hid Hw; [done|].
    rewrite exec_cons. pose proof (step_counter_mono s cc).
    destruct (step_entry id s cc w Hid Hw)
      as [[Hs _]|[(Hpos & _)|(Hpos & _)]]; [|lia|lia].
    apply IH; [lia|done]. }
  split; [done|]. split; [eauto|]. intros ctx. split.
  - by eapply collect_exhausted.
  - by eapply cancel_exhausted.
Qed.

(** ** Cancelling a swap *)

(** C6. In a state the contract reaches, [cancel_swap] called by the issuer
    of an existing swap with editions left, with no tez attached, emits the
    FA2 transfer of all the remaining editions to the issuer and deletes the
    record; afterwards [has_swap] answers false and [get_swap] fails with
    the message of a missing swap id, a state error. *)
Theorem cancel_swap_removes mgr md allowed f pre ctx swap_id w :
  let s := exec (init mgr md allowed f) pre in
  let s' := set_swaps (delete swap_id) s in
  swaps s !! swap_id = Some w ->
  sender ctx = issuer w ->
  amount ctx = 0 ->
  0 < objkt_amount w ->
  transaction ctx (CancelSwap swap_id) s =
    inr (s', [token_move (fa2 w) (self_address ctx) (issuer w)
                         (objkt_id w) (objkt_amount w)]) /\
  swaps s' !! swap_id = None /\
  has_swap s' swap_id = inr false /\
  get_swap s' swap_id = inl (FailWith "The provided swap_id doesn't exist") /\
  error_kind_of (FailWith "The provided swap_id doesn't exist")
    = Some StateError.
Proof.
  intros s s' Hw Hsender Hamount Hpos.
  destruct (reachable_wf mgr md allowed f pre swap_id w Hw) as (_ & Hep & _).
  assert (Hnone : swaps s' !! swap_id = None) by apply lookup_delete_eq.
  split.
  - rewrite <- Hsender. apply transaction_complete. by constructor.
  - split; [done|]. unfold has_swap, get_swap. rewrite Hnone.
    rewrite bool_decide_eq_false_2 by (by intros [? ?]). done.
Qed.

(** ** Handing over the manager role *)

Lemma accept_manager_cases ctx s :
  transaction ctx AcceptManager s =
    match proposed_manager s with
    | None => inl (FailWith "No new manager has been proposed")
    | Some p =>
        if bool_decide (sender ctx = p) then
          if amount ctx =? 0 then
            inr (set_proposed_manager None (set_manager (sender ctx) s), [])
          else inl (FailWith "The operation does not need tez transfers")
        else inl (FailWith "This can only be executed by the proposed manager")
    end.
Proof.
  unfold_M. simpl. destruct (proposed_manager s) as [p|] eqn:Hp; simpl; [|done].
  rewrite Hp. simpl.
  destruct (bool_decide (sender ctx = p)); simpl; [|done].
  destruct (amount ctx =? 0); done.
Qed.

(** C7, as the code has it. [transfer_manager], called by the manager with
    no tez attached, sets the proposed manager to the candidate, whatever
    was proposed before. [accept_manager] succeeds exactly when a manager is
    proposed, the caller is that address and no tez is attached; it then
    makes the caller the manager and clears the proposal. While a proposal is
    pending every other caller fails with the authorization message, and
    with no proposal pending every caller fails with the message that none
    was made. *)
Theorem manager_handover ctx s :
  (forall candidate,
     sender ctx = manager s -> amount ctx = 0 ->
     transaction ctx (TransferManager candidate) s =
       inr (set_proposed_manager (Some candidate) s, [])) /\
  (succeeds ctx AcceptManager s = true <->
     proposed_manager s = Some (sender ctx) /\ amount ctx = 0) /\
  (proposed_manager s = Some (sender ctx) -> amount ctx = 0 ->
     transaction ctx AcceptManager s =
       inr (set_proposed_manager None (set_manager (sender ctx) s), [])) /\
  (forall p, proposed_manager s = Some p -> sender ctx <> p ->
     transaction ctx AcceptManager s =
       inl (FailWith "This can only be executed by the proposed manager") /\
     error_kind_of
       (FailWith "This can only be executed by the proposed manager")
       = Some AuthorizationError) /\
  (proposed_manager s = None ->
     transaction ctx AcceptManager s =
       inl (FailWith "No new manager has been proposed")).
Proof.
  split; [|split; [|split; [|split]]].
  - intros candidate Hm Ha. apply transaction_complete. by constructor.
  - rewrite succeeds_effect. split.
    + intros (s' & ops & He). by inversion He.
    + intros [Hp Ha]. eexists _, _. by constructor.
  - intros Hp Ha. apply transaction_complete. by constructor.
  - intros p Hp Hne. split; [|done]. rewrite accept_manager_cases, Hp.
    by rewrite bool_decide_eq_false_2.
  - intros Hp. by rewrite accept_manager_cases, Hp.
Qed.

(** ** The list of tradable tokens *)

Lemma step_allowed_kept s cc a :
  is_Some (allowed_fa2s s !! a) -> is_Some (allowed_fa2s (step s cc) !! a).
Proof.
  intros Ha. destruct (step_effect s cc) as [->|[ops He]]; [done|].
  inversion He; subst; simpl; try done.
  all: rewrite lookup_insert; case_decide; eauto.
Qed.

(** C8. After a successful [remove_fa2] the token address is still a key of
    the allow list, with value false, and it stays a key whatever calls
    follow; [is_allowed_fa2] answers false; and every [swap] of that token
    fails, with the message of a token that cannot be traded when swaps are
    not paused and no tez is attached. *)
Theorem remove_fa2_soft ctx a s s' ops :
  transaction ctx (RemoveFa2 a) s = inr (s', ops) ->
  allowed_fa2s s' !! a = Some false /\
  is_allowed_fa2 s' a = inr false /\
  (forall calls, is_Some (allowed_fa2s (exec s' calls) !! a)) /\
  (forall ctx' p, p_fa2 p = a ->
     succeeds ctx' (Swap p) s' = false /\
     (swaps_paused s' = false -> amount ctx' = 0 ->
      transaction ctx' (Swap p) s' =
        inl (FailWith "This token type cannot be traded"))).
Proof.
  intros Ht. apply transaction_sound in Ht. inversion Ht; subst.
  assert (Ha : allowed_fa2s (set_allowed_fa2s (insert a false) s) !! a
               = Some false) by (simpl; apply lookup_insert_eq).
  split; [done|]. split; [unfold is_allowed_fa2; by rewrite Ha|]. split.
  - intros calls. apply exec_ind; [by rewrite Ha|].
    intros. by apply step_allowed_kept.
  - intros ctx' p Hp. split.
    + destruct (succeeds ctx' (Swap p) _) eqn:Hs; [|done].
      apply succeeds_effect in Hs as (s'' & ops'' & He). inversion He; subst.
      congruence.
    + intros Hpaused Hamount. unfold_M. simpl in *.
      rewrite Hpaused, Hamount. simpl. rewrite Hp, lookup_insert_eq. done.
Qed.

(** ** The management fee *)

Lemma step_fee s cc :
  fee (step s cc) = fee s \/
  exists n, cc.2 = UpdateFee n /\ n <= 250 /\ fee (step s cc) = n.
Proof.
  destruct (step_effect s cc) as [->|[ops He]]; [by left|].
  inversion He; subst; simpl; try (by left). right. eauto.
Qed.

(** C9. When the contract is initialised with a fee of at most 250, the fee
    is at most 250 after every sequence of calls: [update_fee] fails for a
    value above 250 and no other call changes the fee. The initial storage
    takes the fee it is given, without a check. *)
Theorem fee_bounded mgr md allowed fee0 calls :
  fee0 <= 250 ->
  fee (exec (init mgr md allowed fee0) calls) <= 250 /\
  (forall ctx s n, 250 < n -> succeeds ctx (UpdateFee n) s = false) /\
  (forall s ctx c, (forall n, c <> UpdateFee n) ->
     fee (step s (ctx, c)) = fee s) /\
  (forall f, fee (init mgr md allowed f) = f).
Proof.
  intros H0. split; [|split; [|split]].
  - apply (exec_ind (fun s => fee s <= 250)); [done|].
    intros s cc Hs. destruct (step_fee s cc) as [->|(n & _ & Hn & ->)]; done.
  - intros ctx s n Hn. destruct (succeeds ctx (UpdateFee n) s) eqn:Hs; [|done].
    apply succeeds_effect in Hs as (s' & ops & He). inversion He; subst. lia.
  - intros s ctx c Hc.
    destruct (step_fee s (ctx, c)) as [->|(n & Hn & _)]; [done|].
    by destruct (Hc n).
  - done.
Qed.

(** ** Opening a swap *)

(** [swap] as a decision list: the first check that fails gives the result. *)
Lemma swap_cases ctx p s :
  transaction ctx (Swap p) s =
    if swaps_paused s then inl (FailWith "Swaps are paused")
    else if negb (amount ctx =? 0)
    then inl (FailWith "The operation does not need tez transfers")
    else if negb (default false (allowed_fa2s s !! p_fa2 p))
    then inl (FailWith "This token type cannot be traded")
    else if negb (0 <? p_objkt_amount p)
    then inl (FailWith "At least one edition needs to be swapped")
    else if negb (p_royalties p <=? 250)
    then inl (FailWith "The royalties cannot be higher than 25%")
    else if negb (transfer_entry_point (p_fa2 p)) then inl OpenSomeFailed
    else inr (set_counter (counter s + 1)
                (set_swaps (insert (counter s) (new_swap ctx p)) s),
              [token_move (p_fa2 p) (sender ctx) (self_address ctx)
                          (p_objkt_id p) (p_objkt_amount p)]).
Proof.
  unfold_M. simpl.
  destruct (swaps_paused s); simpl; [done|].
  destruct (amount ctx =? 0); simpl; [|done].
  destruct (default false (allowed_fa2s s !! p_fa2 p)); simpl; [|done].
  destruct (0 <? p_objkt_amount p); simpl; [|done].
  destruct (p_royalties p <=? 250); simpl; [|done].
  destruct (transfer_entry_point (p_fa2 p)); simpl; done.
Qed.

(** X1. [swap] returns exactly when swaps are not paused, no tez is attached,
    the token contract is allowed, at least one edition is offered, the
    royalties are at most 250 and the token contract has a [transfer] entry
    point; it then stores the new record under the old counter, raises the
    counter by one and emits one FA2 transfer of all the editions from the
    caller to the marketplace. *)
Theorem swap_characterised ctx p s s' ops :
  transaction ctx (Swap p) s = inr (s', ops) <->
  swaps_paused s = false /\
  amount ctx = 0 /\
  allowed_fa2s s !! p_fa2 p = Some true /\
  0 < p_objkt_amount p /\
  p_royalties p <= 250 /\
  transfer_entry_point (p_fa2 p) = true /\
  s' = set_counter (counter s + 1)
         (set_swaps (insert (counter s) (new_swap ctx p)) s) /\
  ops = [token_move (p_fa2 p) (sender ctx) (self_address ctx)
                    (p_objkt_id p) (p_objkt_amount p)].
Proof.
  split.
  - intros Ht. apply transaction_sound in Ht. inversion Ht; subst.
    repeat split; done.
  - intros (? & ? & ? & ? & ? & ? & -> & ->).
    apply transaction_complete. by constructor.
Qed.

(** X2. A failing [swap] reports the first check that fails, in the order
    of the source: paused, tez attached, token not allowed (absent from the
    allow list or listed as false), no edition, royalties above 250, and
    last a token contract without [transfer] entry point, which fails
    without a message. Whatever the failure, the storage is untouched and
    no operation has been emitted when the failing statement is reached. *)
Theorem swap_failure_messages ctx p s :
  (swaps_paused s = true ->
     transaction ctx (Swap p) s = inl (FailWith "Swaps are paused")) /\
  (swaps_paused s = false -> amount ctx <> 0 ->
     transaction ctx (Swap p) s =
       inl (FailWith "The operation does not need tez transfers")) /\
  (swaps_paused s = false -> amount ctx = 0 ->
   allowed_fa2s s !! p_fa2 p <> Some true ->
     transaction ctx (Swap p) s =
       inl (FailWith "This token type cannot be traded")) /\
  (swaps_paused s = false -> amount ctx = 0 ->
   allowed_fa2s s !! p_fa2 p = Some true -> p_objkt_amount p = 0 ->
     transaction ctx (Swap p) s =
       inl (FailWith "At least one edition needs to be swapped")) /\
  (swaps_paused s = false -> amount ctx = 0 ->
   allowed_fa2s s !! p_fa2 p = Some true -> 0 < p_objkt_amount p ->
   250 < p_royalties p ->
     transaction ctx (Swap p) s =
       inl (FailWith "The royalties cannot be higher than 25%")) /\
  (swaps_paused s = false -> amount ctx = 0 ->
   allowed_fa2s s !! p_fa2 p = Some true -> 0 < p_objkt_amount p ->
   p_royalties p <= 250 -> transfer_entry_point (p_fa2 p) = false ->
     transaction ctx (Swap p) s = inl OpenSomeFailed) /\
  (forall e m, swap ctx p (start s) = Abort e m ->
     data m = s /\ operations m = []).
Proof.
  rewrite swap_cases. split; [|split; [|split; [|split; [|split; [|split]]]]].
  - by intros ->.
  - intros -> Ha. by rewrite (proj2 (N.eqb_neq _ _) Ha).
  - intros -> -> Hl. simpl.
    destruct (allowed_fa2s s !! p_fa2 p) as [[]|]; simpl; done.
  - intros -> -> -> ->. done.
  - intros -> -> -> Hn Hr. simpl. rewrite (ltb_0_true _ Hn). simpl.
    by rewrite (proj2 (N.leb_gt _ _) Hr).
  - intros -> -> -> Hn Hr ->. simpl. rewrite (ltb_0_true _ Hn). simpl.
    by rewrite (proj2 (N.leb_le _ _) Hr).
  - intros e m Hm. unfold_M. run_M; done.
Qed.

(** ** Cancelling, check by check *)

Lemma cancel_swap_cases ctx swap_id s :
  transaction ctx (CancelSwap swap_id) s =
    if negb (amount ctx =? 0)
    then inl (FailWith "The operation does not need tez transfers")
    else match swaps s !! swap_id with
         | None => inl (FailWith "The provided swap_id doesn't exist")
         | Some w =>
             if negb (bool_decide (sender ctx = issuer w))
             then inl (FailWith "Only the swap issuer can cancel the swap")
             else if negb (0 <? objkt_amount w)
             then inl (FailWith "All editions have been collected")
             else if negb (transfer_entry_point (fa2 w))
             then inl OpenSomeFailed
             else inr (set_swaps (delete swap_id) s,
                       [token_move (fa2 w) (self_address ctx) (sender ctx)
                                   (objkt_id w) (objkt_amount w)])
         end.
Proof.
  unfold_M. simpl.
  destruct (amount ctx =? 0); simpl; [|done].
  destruct (swaps s !! swap_id) as [w|] eqn:Hw; simpl; [|done].
  rewrite ?Hw. simpl.
  destruct (bool_decide (sender ctx = issuer w)); simpl; [|done].
  destruct (0 <? objkt_amount w); simpl; [|done].
  destruct (transfer_entry_point (fa2 w)); simpl; done.
Qed.

(** X3. A failing [cancel_swap] reports the first check that fails, in the
    order of the source: tez attached, unknown swap id, caller not the
    issuer, no edition left, and last a token contract without [transfer]
    entry point. A failed cancellation has not touched the storage and has
    emitted nothing when it fails; in particular an unknown id is reported,
    not silently ignored. *)
Theorem cancel_swap_failure_messages ctx swap_id s :
  (amount ctx <> 0 ->
     transaction ctx (CancelSwap swap_id) s =
       inl (FailWith "The operation does not need tez transfers")) /\
  (amount ctx = 0 -> swaps s !! swap_id = None ->
     transaction ctx (CancelSwap swap_id) s =
       inl (FailWith "The provided swap_id doesn't exist")) /\
  (forall w, amount ctx = 0 -> swaps s !! swap_id = Some w ->
     (sender ctx <> issuer w ->
        transaction ctx (CancelSwap swap_id) s =
          inl (FailWith "Only the swap issuer can cancel the swap")) /\
     (sender ctx = issuer w -> objkt_amount w = 0 ->
        transaction ctx (CancelSwap swap_id) s =
          inl (FailWith "All editions have been collected")) /\
     (sender ctx = issuer w -> 0 < objkt_amount w ->
      transfer_entry_point (fa2 w) = false ->
        transaction ctx (CancelSwap swap_id) s = inl OpenSomeFailed)) /\
  (forall e m, cancel_swap ctx swap_id (start s) = Abort e m ->
     data m = s /\ operations m = []).
Proof.
  rewrite cancel_swap_cases. split; [|split; [|split]].
  - intros Ha. by rewrite (proj2 (N.eqb_neq _ _) Ha).
  - intros -> ->. done.
  - intros w -> ->. simpl. split; [|split].
    + intros Hi. by rewrite (bool_decide_eq_false_2 _ Hi).
    + intros Hi ->. by rewrite (bool_decide_eq_true_2 _ Hi).
    + intros Hi Hn ->. rewrite (bool_decide_eq_true_2 _ Hi).
      simpl. by rewrite (ltb_0_true _ Hn).
  - intros e m Hm. unfold_M. run_M; done.
Qed.

(** ** The manager's entry points *)

Lemma manager_only_rejects ctx c s :
  manager_only c = true -> sender ctx <> manager s ->
  transaction ctx c s =
    inl (FailWith "This can only be executed by the manager").
Proof.
  intros Hc Hm. destruct c; try discriminate Hc; unfold_M; simpl;
    by rewrite (bool_decide_eq_false_2 _ Hm).
Qed.

(** X4. The eight entry points that begin with [check_is_manager] fail with
    the manager message for every other caller, whatever tez is attached,
    and with the tez message for the manager with tez attached; [update_fee]
    by the manager without tez fails above 250. They return exactly when
    the caller is the manager, no tez is attached and, for [update_fee],
    the fee is at most 250; they then emit no operation and leave the swaps
    and the counter as they are. *)
Theorem manager_only_guard ctx c s :
  manager_only c = true ->
  (sender ctx <> manager s ->
     transaction ctx c s =
       inl (FailWith "This can only be executed by the manager")) /\
  (sender ctx = manager s -> amount ctx <> 0 ->
     transaction ctx c s =
       inl (FailWith "The operation does not need tez transfers")) /\
  (forall n, c = UpdateFee n -> sender ctx = manager s -> amount ctx = 0 ->
     250 < n ->
     transaction ctx c s =
       inl (FailWith "The management fee cannot be higher than 25%")) /\
  (succeeds ctx c s = true <->
     sender ctx = manager s /\ amount ctx = 0 /\
     forall n, c = UpdateFee n -> n <= 250) /\
  (forall s' ops, transaction ctx c s = inr (s', ops) ->
     ops = [] /\ swaps s' = swaps s /\ counter s' = counter s).
Proof.
  intros Hc. split; [|split; [|split; [|split]]].
  - by apply manager_only_rejects.
  - intros Hm Ha. destruct c; try discriminate Hc; unfold_M; simpl;
      rewrite (bool_decide_eq_true_2 _ Hm); simpl;
      by rewrite (proj2 (N.eqb_neq _ _) Ha).
  - intros n -> Hm Ha Hn. unfold_M. simpl.
    rewrite (bool_decide_eq_true_2 _ Hm). simpl. rewrite Ha. simpl.
    by rewrite (proj2 (N.leb_gt _ _) Hn).
  - rewrite succeeds_effect. split.
    + intros (s' & ops & He).
      inversion He; subst; try discriminate Hc; repeat split; try done;
        intros ? [= <-]; done.
    + intros (Hm & Ha & Hn).
      destruct c; try discriminate Hc; eexists _, _; constructor; eauto.
  - intros s' ops Ht. apply transaction_sound in Ht.
    inversion Ht; subst; try discriminate Hc; done.
Qed.

(** ** Who can change what *)

(** X5. The configuration of the marketplace (manager, metadata, allow
    list, fee, fee recipient, proposed manager and both pause flags) is not
    changed by [swap], [collect] or [cancel_swap], whoever calls them, nor by
    any call of an address that is neither the manager nor the proposed
    manager. *)
Theorem configuration_protected ctx c s :
  trading c = true \/
  (sender ctx <> manager s /\ proposed_manager s <> Some (sender ctx)) ->
  configuration (step s (ctx, c)) = configuration s.
Proof.
  intros Hwho.
  destruct (step_effect s (ctx, c)) as [->|[ops He]]; [done|].
  simpl in He. inversion He; subst; try done.
  all: destruct Hwho as [Ht|[Hm Hp]]; try discriminate Ht; congruence.
Qed.

(** ** Tez never stays in the contract *)

(** X6. Every call that returns sends out exactly the tez it received: the
    operations of a successful [collect] carry the attached amount, every
    other entry point takes no tez and sends none. *)
Theorem tez_passes_through ctx c s s' ops :
  transaction ctx c s = inr (s', ops) -> total_tez ops = amount ctx.
Proof.
  intros Ht. apply transaction_sound in Ht.
  inversion Ht; subst; try (unfold total_tez; simpl; lia).
  rewrite total_tez_app.
  match goal with H : collect_payments _ _ _ |- _ =>
    destruct H as [[HP ->]|(HP & Hr & Hf & Hle & ->)] end.
  - unfold total_tez. simpl. lia.
  - rewrite total_tez_payout.
    match goal with H : amount ctx = _ |- _ => rewrite H end.
    revert Hle. generalize (xtz_per_objkt w * royalties w / 1000).
    generalize (xtz_per_objkt w * fee s / 1000). intros a b Hle.
    unfold total_tez. simpl. lia.
Qed.

(** ** The terms of a swap *)

(** X7. Once a swap is stored, no sequence of calls changes its issuer,
    token contract, token id, price, royalties or creator: as long as the
    record exists it differs from the original only in the number of
    editions, which never grows. *)
Theorem swap_terms_immutable mgr md allowed f pre id w calls w' :
  let s := exec (init mgr md allowed f) pre in
  swaps s !! id = Some w ->
  swaps (exec s calls) !! id = Some w' ->
  issuer w' = issuer w /\ fa2 w' = fa2 w /\ objkt_id w' = objkt_id w /\
  xtz_per_objkt w' = xtz_per_objkt w /\ royalties w' = royalties w /\
  creator w' = creator w /\ objkt_amount w' <= objkt_amount w.
Proof.
  intros s Hw Hw'.
  destruct (reachable_wf mgr md allowed f pre id w Hw) as (Hid & _).
  destruct (exec_entry id calls s w Hid Hw) as [_ Hfin].
  rewrite (Hfin w' Hw'). simpl. repeat split. lia.
Qed.

(** ** The views *)

(** X8. [get_swap] returns a record exactly when one is stored under the
    id, and fails with the missing-id message exactly when [has_swap]
    answers false; right after a successful [swap] the new record is read
    back under the old counter value and [get_swaps_counter] is one higher;
    and in every state the contract reaches no swap exists at or above
    [get_swaps_counter]. *)
Theorem views_reflect_storage mgr md allowed f calls id :
  let s := exec (init mgr md allowed f) calls in
  (forall w, get_swap s id = inr w <-> swaps s !! id = Some w) /\
  (has_swap s id = inr false <->
     get_swap s id = inl (FailWith "The provided swap_id doesn't exist")) /\
  (has_swap s id = inr true <-> exists w, get_swap s id = inr w) /\
  (forall k, get_swaps_counter s = inr k -> k <= id ->
     has_swap s id = inr false) /\
  (forall ctx p s' ops, transaction ctx (Swap p) s = inr (s', ops) ->
     get_swaps_counter s = inr id ->
     get_swap s' id = inr (new_swap ctx p) /\
     has_swap s' id = inr true /\
     get_swaps_counter s' = inr (id + 1)).
Proof.
  intros s. unfold get_swap, has_swap, get_swaps_counter.
  split; [|split; [|split; [|split]]].
  - intros w. destruct (swaps s !! id) as [w0|] eqn:Hw.
    + rewrite bool_decide_eq_true_2 by eauto. split; congruence.
    + rewrite bool_decide_eq_false_2 by (by intros [? ?]). split; congruence.
  - destruct (swaps s !! id) as [w0|] eqn:Hw.
    + rewrite bool_decide_eq_true_2 by eauto. split; congruence.
    + rewrite bool_decide_eq_false_2 by (by intros [? ?]). done.
  - destruct (swaps s !! id) as [w0|] eqn:Hw.
    + rewrite bool_decide_eq_true_2 by eauto. split; eauto.
    + rewrite bool_decide_eq_false_2 by (by intros [? ?]).
      split; [discriminate|]. intros [w Hn]. discriminate.
  - intros k [= <-] Hk. destruct (swaps s !! id) as [w0|] eqn:Hw.
    + destruct (reachable_wf mgr md allowed f calls id w0 Hw) as (Hid & _).
      fold s in Hid. lia.
    + by rewrite bool_decide_eq_false_2 by (by intros [? ?]).
  - intros ctx p s' ops Ht [= <-]. apply transaction_sound in Ht.
    inversion Ht; subst. simpl. rewrite lookup_insert_eq.
    rewrite bool_decide_eq_true_2 by eauto. done.
Qed.

(** ** Governance cannot block a withdrawal *)

Lemma step_swaps_kept s cc :
  manager_only cc.2 = true \/ cc.2 = AcceptManager ->
  swaps (step s cc) = swaps s.
Proof.
  intros Hc. destruct (step_effect s cc) as [->|[ops He]]; [done|].
  inversion He; subst; try done.
  all: destruct Hc as [Hc|Hc]; rewrite <- ?H in Hc; discriminate Hc.
Qed.

Lemma exec_swaps_kept s calls :
  Forall (fun cc => manager_only cc.2 = true \/ cc.2 = AcceptManager) calls ->
  swaps (exec s calls) = swaps s.
Proof.
  revert s. induction calls as [|cc calls IH]; intros s Hall; [done|].
  inversion Hall; subst. rewrite exec_cons, IH by done.
  by apply step_swaps_kept.
Qed.

(** X9. Whether and how a swap can be cancelled depends on the stored swaps
    only: after any sequence of manager calls and manager handovers
    (pausing, delisting the token, changing the fee, a new manager) a
    cancellation emits the same operations as it would have before, and
    fails if it would have failed. *)
Theorem cancel_swap_unaffected_by_governance ctx swap_id s gov :
  Forall (fun cc => manager_only cc.2 = true \/ cc.2 = AcceptManager) gov ->
  emitted (exec s gov) (ctx, CancelSwap swap_id)
    = emitted s (ctx, CancelSwap swap_id) /\
  succeeds ctx (CancelSwap swap_id) (exec s gov)
    = succeeds ctx (CancelSwap swap_id) s.
Proof.
  intros Hall. pose proof (exec_swaps_kept s gov Hall) as Hsw.
  unfold emitted, succeeds. simpl. rewrite !cancel_swap_cases, Hsw.
  destruct (negb (amount ctx =? 0)); [done|].
  destruct (swaps s !! swap_id) as [w|]; [|done].
  destruct (negb (bool_decide (sender ctx = issuer w))); [done|].
  destruct (negb (0 <? objkt_amount w)); [done|].
  destruct (negb (transfer_entry_point (fa2 w))); done.
Qed.

(** ** Collecting in the states the contract reaches *)

Lemma reachable_fee mgr md allowed fee0 calls :
  fee0 <= 250 -> fee (exec (init mgr md allowed fee0) calls) <= 250.
Proof.
  intros H0. apply (exec_ind (fun s => fee s <= 250)); [done|].
  intros s cc Hs. destruct (step_fee s cc) as [->|(n & _ & Hn & ->)]; done.
Qed.


(** X11. In every state reached from an initial fee of at most 250, a
    successful [collect] of a swap with a nonzero price sends its issuer at
    least half of the price: the stored royalties and the fee are each at
    most a quarter. *)
Theorem issuer_gets_half mgr md allowed fee0 calls ctx swap_id w s' ops :
  let s := exec (init mgr md allowed fee0) calls in
  fee0 <= 250 ->
  swaps s !! swap_id = Some w ->
  xtz_per_objkt w <> 0 ->
  transaction ctx (Collect swap_id) s = inr (s', ops) ->
  exists v, Send (issuer w) v ∈ ops /\ xtz_per_objkt w <= 2 * v.
Proof.
  intros s H0 Hw HP Ht.
  destruct (reachable_wf mgr md allowed fee0 calls swap_id w Hw)
    as (_ & _ & Hr).
  pose proof (reachable_fee mgr md allowed fee0 calls H0) as Hf. fold s in Hf.
  pose proof (quarter_share (xtz_per_objkt w) (royalties w) Hr) as Qr.
  pose proof (quarter_share (xtz_per_objkt w) (fee s) Hf) as Qf.
  destruct (collect_pays_issuer _ _ _ _ _ _ Hw HP Ht) as [Hle Hin].
  eexists. split; [exact Hin|].
  revert Qr Qf Hle. generalize (xtz_per_objkt w * royalties w / 1000).
  generalize (xtz_per_objkt w * fee s / 1000). intros a b Qa Qb Hle. lia.
Qed.

(** ** A completed handover *)

(** X12. After the manager proposes an address and that address accepts,
    both without tez, the address is the manager and no proposal is pending;
    the fee, the fee recipient (which [init] set to the first manager), the
    swaps and the counter are as before; every manager entry point now fails
    for any other caller, the previous manager included; and a second
    [accept_manager] fails for everyone. *)
Theorem handover_transfers_rights ctx_m ctx_a a s :
  sender ctx_m = manager s -> amount ctx_m = 0 ->
  sender ctx_a = a -> amount ctx_a = 0 ->
  let s' := exec s [(ctx_m, TransferManager a); (ctx_a, AcceptManager)] in
  manager s' = a /\
  proposed_manager s' = None /\
  fee_recipient s' = fee_recipient s /\
  fee s' = fee s /\
  swaps s' = swaps s /\ counter s' = counter s /\
  (forall ctx c, manager_only c = true -> sender ctx <> a ->
     transaction ctx c s' =
       inl (FailWith "This can only be executed by the manager")) /\
  (forall ctx, transaction ctx AcceptManager s' =
     inl (FailWith "No new manager has been proposed")).
Proof.
  intros Hm Hm0 Ha Ha0 s'.
  assert (Hs' : s' = set_proposed_manager None
                  (set_manager a (set_proposed_manager (Some a) s))).
  { unfold s'. rewrite !exec_cons.
    rewrite (step_done ctx_m (TransferManager a) s
               (set_proposed_manager (Some a) s) [])
      by (apply transaction_complete; by constructor).
    rewrite (step_done ctx_a AcceptManager _
               (set_proposed_manager None
                  (set_manager (sender ctx_a)
                     (set_proposed_manager (Some a) s))) []).
    - by rewrite Ha.
    - apply transaction_complete. constructor; [|done]. simpl. by rewrite Ha. }
  rewrite Hs'. simpl. do 6 (split; [done|]). split.
  - intros ctx c Hc Hne. by apply manager_only_rejects.
  - intros ctx. by rewrite accept_manager_cases.
Qed.

(** ** What a call depends on *)

Lemma collect_result_transfers s1 s2 ctx id s1' ops :
  collects_paused s1 = collects_paused s2 -> swaps s1 = swaps s2 ->
  fee s1 = fee s2 -> fee_recipient s1 = fee_recipient s2 ->
  transaction ctx (Collect id) s1 = inr (s1', ops) ->
  exists s2', transaction ctx (Collect id) s2 = inr (s2', ops).
Proof.
  intros Hp Hs Hf Hr Ht. apply transaction_sound in Ht.
  inversion Ht; subst. eexists. apply transaction_complete.
  apply effect_collect; try congruence.
  - unfold collect_payments, payout in *. by rewrite <- Hf, <- Hr.
  - unfold collect_recipients in *. by rewrite <- Hf, <- Hr.
Qed.

Lemma collect_depends s1 s2 ctx id :
  collects_paused s1 = collects_paused s2 -> swaps s1 = swaps s2 ->
  fee s1 = fee s2 -> fee_recipient s1 = fee_recipient s2 ->
  emitted s1 (ctx, Collect id) = emitted s2 (ctx, Collect id) /\
  succeeds ctx (Collect id) s1 = succeeds ctx (Collect id) s2.
Proof.
  intros Hp Hs Hf Hr. unfold emitted, succeeds. simpl.
  destruct (transaction ctx (Collect id) s1) as [e1|[s1' ops1]] eqn:H1.
  - destruct (transaction ctx (Collect id) s2) as [e2|[s2' ops2]] eqn:H2;
      [done|].
    destruct (collect_result_transfers s2 s1 ctx id s2' ops2) as [? H];
      try done. congruence.
  - destruct (collect_result_transfers s1 s2 ctx id s1' ops1) as [s2' H];
      try done. by rewrite H.
Qed.

(** X13. The two pause switches are independent. Set by the manager,
    [pause_swaps] changes only its own flag and leaves every [collect] as it
    was, [pause_collects] changes only its own flag and leaves the success
    of every [swap] as it was; while a switch is on, every call of its
    entry point fails with the pause message, whoever calls and whatever
    else holds; and switching on and off again restores the storage. *)
Theorem pause_switches_independent ctx s b :
  sender ctx = manager s -> amount ctx = 0 ->
  let s1 := step s (ctx, PauseSwaps b) in
  let s2 := step s (ctx, PauseCollects b) in
  s1 = set_swaps_paused b s /\
  s2 = set_collects_paused b s /\
  (forall ctx' id,
     emitted s1 (ctx', Collect id) = emitted s (ctx', Collect id) /\
     succeeds ctx' (Collect id) s1 = succeeds ctx' (Collect id) s) /\
  (forall ctx' p,
     emitted s2 (ctx', Swap p) = emitted s (ctx', Swap p) /\
     succeeds ctx' (Swap p) s2 = succeeds ctx' (Swap p) s) /\
  (b = true -> forall ctx' p,
     transaction ctx' (Swap p) s1 = inl (FailWith "Swaps are paused")) /\
  (b = true -> forall ctx' id,
     transaction ctx' (Collect id) s2 = inl (FailWith "Collects are paused")) /\
  (swaps_paused s = false ->
     exec s [(ctx, PauseSwaps true); (ctx, PauseSwaps false)] = s) /\
  (collects_paused s = false ->
     exec s [(ctx, PauseCollects true); (ctx, PauseCollects false)] = s).
Proof.
  intros Hm Ha s1 s2.
  assert (Hsw : forall b' s0, sender ctx = manager s0 ->
            step s0 (ctx, PauseSwaps b') = set_swaps_paused b' s0).
  { intros b' s0 Hm0. apply (step_done _ _ _ _ []).
    apply transaction_complete. by constructor. }
  assert (Hco : forall b' s0, sender ctx = manager s0 ->
            step s0 (ctx, PauseCollects b') = set_collects_paused b' s0).
  { intros b' s0 Hm0. apply (step_done _ _ _ _ []).
    apply transaction_complete. by constructor. }
  assert (H1 : s1 = set_swaps_paused b s) by by apply Hsw.
  assert (H2 : s2 = set_collects_paused b s) by by apply Hco.
  split; [done|]. split; [done|]. rewrite H1, H2.
  split; [|split; [|split; [|split; [|split]]]].
  - intros ctx' id. by apply collect_depends.
  - intros ctx' p. unfold emitted, succeeds. simpl. rewrite !swap_cases.
    simpl. destruct (swaps_paused s); [done|].
    destruct (negb (amount ctx' =? 0)); [done|].
    destruct (negb (default false (allowed_fa2s s !! p_fa2 p))); [done|].
    destruct (negb (0 <? p_objkt_amount p)); [done|].
    destruct (negb (p_royalties p <=? 250)); [done|].
    destruct (negb (transfer_entry_point (p_fa2 p))); done.
  - intros -> ctx' p. by rewrite swap_cases.
  - intros -> ctx' id. unfold_M. done.
  - intros Hp. rewrite !exec_cons. simpl.
    rewrite (Hsw true s Hm), (Hsw false (set_swaps_paused true s) Hm).
    destruct s. simpl in *. by rewrite Hp.
  - intros Hp. rewrite !exec_cons. simpl.
    rewrite (Hco true s Hm), (Hco false (set_collects_paused true s) Hm).
    destruct s. simpl in *. by rewrite Hp.
Qed.

(** ** Listing and delisting token contracts *)

(** X14. Set by the manager, [add_fa2] makes [is_allowed_fa2] answer true
    for the address and [remove_fa2] false, whatever was stored before, so
    the last of the two calls decides; neither changes the answer for any
    other address; an address that was never added is not allowed; and
    delisting a token contract leaves every [collect] of an existing swap
    as it was, so editions in custody can still be bought. *)
Theorem allow_list_updates ctx a s :
  sender ctx = manager s -> amount ctx = 0 ->
  let s1 := step s (ctx, AddFa2 a) in
  let s0 := step s (ctx, RemoveFa2 a) in
  is_allowed_fa2 s1 a = inr true /\
  is_allowed_fa2 s0 a = inr false /\
  is_allowed_fa2 (step s0 (ctx, AddFa2 a)) a = inr true /\
  is_allowed_fa2 (step s1 (ctx, RemoveFa2 a)) a = inr false /\
  (forall b, b <> a ->
     is_allowed_fa2 s1 b = is_allowed_fa2 s b /\
     is_allowed_fa2 s0 b = is_allowed_fa2 s b) /\
  (forall b, allowed_fa2s s !! b = None -> is_allowed_fa2 s b = inr false) /\
  (forall ctx' id,
     emitted s0 (ctx', Collect id) = emitted s (ctx', Collect id) /\
     succeeds ctx' (Collect id) s0 = succeeds ctx' (Collect id) s).
Proof.
  intros Hm Ha s1 s0.
  assert (Hadd : forall s', sender ctx = manager s' ->
            step s' (ctx, AddFa2 a) = set_allowed_fa2s (insert a true) s').
  { intros s' Hm'. apply (step_done _ _ _ _ []).
    apply transaction_complete. by constructor. }
  assert (Hrem : forall s', sender ctx = manager s' ->
            step s' (ctx, RemoveFa2 a) = set_allowed_fa2s (insert a false) s').
  { intros s' Hm'. apply (step_done _ _ _ _ []).
    apply transaction_complete. by constructor. }
  assert (H1 : s1 = set_allowed_fa2s (insert a true) s) by by apply Hadd.
  assert (H0 : s0 = set_allowed_fa2s (insert a false) s) by by apply Hrem.
  rewrite H1, H0, Hadd, Hrem by done.
  unfold is_allowed_fa2. simpl. rewrite !lookup_insert_eq.
  split; [done|]. split; [done|]. split; [done|]. split; [done|].
  split; [|split].
  - intros b Hb. by rewrite !lookup_insert_ne.
  - intros b ->. done.
  - intros ctx' id. by apply collect_depends.
Qed.

(** ** Custody of the editions *)

Lemma sum_with_app {A} (f : A -> N) l1 l2 :
  sum_with f (l1 ++ l2) = sum_with f l1 + sum_with f l2.
Proof.
  induction l1 as [|x l1 IH]; [done|].
  unfold sum_with in *. simpl. rewrite IH. lia.
Qed.

Lemma held_fold_insert tc id k w (m : gmap N swap_record) :
  m !! k = None ->
  map_fold (fun _ w acc => held tc id w + acc) 0 (<[k:=w]> m)
    = held tc id w + map_fold (fun _ w acc => held tc id w + acc) 0 m.
Proof.
  intros Hk.
  apply (map_fold_insert_L (fun _ w acc => held tc id w + acc) 0 k w m);
    [intros; lia|done].
Qed.

Lemma held_fold_delete tc id k w (m : gmap N swap_record) :
  m !! k = Some w ->
  map_fold (fun _ w acc => held tc id w + acc) 0 m
    = held tc id w
      + map_fold (fun _ w acc => held tc id w + acc) 0 (delete k m).
Proof.
  intros Hk.
  apply (map_fold_delete_L (fun _ w acc => held tc id w + acc) 0 k w m);
    [intros; lia|done].
Qed.

Lemma held_fold_update tc id k w w' (m : gmap N swap_record) :
  m !! k = Some w ->
  map_fold (fun _ w acc => held tc id w + acc) 0 (<[k:=w']> m) + held tc id w
    = held tc id w' + map_fold (fun _ w acc => held tc id w + acc) 0 m.
Proof.
  intros Hk. rewrite <- (insert_delete_eq m k w').
  rewrite held_fold_insert by apply lookup_delete_eq.
  rewrite (held_fold_delete tc id k w m Hk). lia.
Qed.

Lemma payout_moves_no_edition (g : operation -> N) w s r f i :
  (forall d v, g (Send d v) = 0) -> sum_with g (payout w s r f i) = 0.
Proof.
  intros Hg. unfold payout.
  destruct (0 <? r), (0 <? f); unfold sum_with; simpl; rewrite ?Hg; lia.
Qed.

(** One call: what enters the custody of [self] is what leaves it plus what
    the stored swaps gain. *)
Lemma step_custody self tc id s cc :
  swaps_wf s ->
  self_address cc.1 = self -> sender cc.1 <> self ->
  sum_with (editions_to self tc id) (emitted s cc) + escrowed tc id s
  = sum_with (editions_from self tc id) (emitted s cc)
    + escrowed tc id (step s cc).
Proof.
  intros Hwf Hself Hsender. destruct cc as [ctx c]. simpl in *.
  unfold emitted, step. simpl.
  destruct (transaction ctx c s) as [e|[s' ops]] eqn:Ht; [done|].
  apply transaction_sound in Ht. inversion Ht; subst; try done.
  - (* swap *)
    unfold escrowed. simpl. rewrite held_fold_insert.
    + unfold held, sum_with, token_move, new_swap. simpl.
      repeat case_bool_decide; simpl; try lia; exfalso; intuition congruence.
    + destruct (swaps s !! counter s) as [w|] eqn:Hw; [|done].
      destruct (Hwf _ _ Hw) as (Hlt & _). lia.
  - (* collect *)
    rewrite !sum_with_app.
    assert (Hpay : forall g, (forall d v, g (Send d v) = 0) ->
                             sum_with g pay = 0).
    { intros g Hg.
      match goal with H : collect_payments _ _ _ |- _ =>
        destruct H as [[_ ->]|(_ & _ & _ & _ & ->)] end; [done|].
      by apply payout_moves_no_edition. }
    rewrite !Hpay by done.
    unfold escrowed. simpl.
    match goal with H : swaps s !! _ = Some _ |- _ =>
      pose proof (held_fold_update tc id _ _
        (set_objkt_amount (objkt_amount w - 1) w) _ H) as Hup end.
    revert Hup. unfold held, sum_with, token_move. simpl.
    repeat case_bool_decide; simpl; try lia; exfalso; intuition congruence.
  - (* cancel_swap *)
    unfold escrowed. simpl.
    match goal with H : swaps s !! _ = Some _ |- _ =>
      rewrite (held_fold_delete tc id _ _ _ H) end.
    unfold held, sum_with, token_move. simpl.
    repeat case_bool_decide; simpl; try lia; exfalso; intuition congruence.
Qed.

Lemma exec_custody self tc id calls s :
  swaps_wf s ->
  Forall (fun cc => self_address cc.1 = self /\ sender cc.1 <> self) calls ->
  sum_with (editions_to self tc id) (exec_ops s calls) + escrowed tc id s
  = sum_with (editions_from self tc id) (exec_ops s calls)
    + escrowed tc id (exec s calls).
Proof.
  revert s. induction calls as [|cc calls IH]; intros s Hwf Hall.
  - simpl. unfold sum_with. simpl. lia.
  - inversion Hall as [|? ? [Hself Hsender] Hrest]; subst.
    rewrite exec_cons. simpl. rewrite !sum_with_app.
    pose proof (step_custody _ tc id s cc Hwf eq_refl Hsender) as H1.
    pose proof (IH (step s cc) (step_wf s cc Hwf) Hrest) as H2.
    lia.
Qed.

(** X15. Custody is conserved. Take any sequence of calls on a freshly
    initialised contract, made by callers other than the contract itself:
    for every token, the editions the emitted FA2 transfers move to the
    marketplace are exactly those they move out of it plus those the stored
    swaps still offer. *)
Theorem custody_conserved mgr md allowed f self tc id calls :
  let s0 := init mgr md allowed f in
  Forall (fun cc => self_address cc.1 = self /\ sender cc.1 <> self) calls ->
  sum_with (editions_to self tc id) (exec_ops s0 calls)
  = sum_with (editions_from self tc id) (exec_ops s0 calls)
    + escrowed tc id (exec s0 calls).
Proof.
  intros s0 Hall.
  pose proof (exec_custody self tc id calls s0
                (init_wf mgr md allowed f) Hall) as H.
  unfold escrowed at 1 in H. simpl in H. rewrite map_fold_empty in H. lia.
Qed.

(** ** The contract metadata *)

Lemma step_metadata_kept s cc k :
  is_Some (metadata s !! k) -> is_Some (metadata (step s cc) !! k).
Proof.
  intros Hk. destruct (step_effect s cc) as [->|[ops He]]; [done|].
  inversion He; subst; simpl; try done.
  rewrite lookup_insert. case_decide; eauto.
Qed.

(** X16. A successful [update_metadata] stores the value under the key,
    replacing what was there, and leaves every other key as it was; no
    entry point removes a metadata key, so the key stays present after any
    further calls; and from a caller other than the manager the call
    changes nothing. *)
Theorem metadata_updates ctx k v s s' ops :
  transaction ctx (UpdateMetadata k v) s = inr (s', ops) ->
  metadata s' !! k = Some v /\
  (forall k', k' <> k -> metadata s' !! k' = metadata s !! k') /\
  (forall calls, is_Some (metadata (exec s' calls) !! k)) /\
  (forall ctx' v', sender ctx' <> manager s' ->
     step s' (ctx', UpdateMetadata k v') = s').
Proof.
  intros Ht. apply transaction_sound in Ht. inversion Ht; subst. simpl.
  split; [apply lookup_insert_eq|]. split; [|split].
  - intros k' Hk'. by apply lookup_insert_ne.
  - intros calls. apply exec_ind.
    + simpl. rewrite lookup_insert_eq. eauto.
    + intros. by apply step_metadata_kept.
  - intros ctx' v' Hm. apply (step_failed _ _ _
      (FailWith "This can only be executed by the manager")).
    by apply manager_only_rejects.
Qed.

(** ** Listing and withdrawing *)

(** X17. In a state the contract reaches, a successful [swap] followed at
    once by its cancellation from the same caller restores the storage up
    to the counter, which stays one higher: the id is spent. The two calls
    emit the FA2 transfer of the editions to the marketplace and the
    transfer of the same editions back. *)
Theorem swap_then_cancel mgr md allowed f pre ctx p :
  let s := exec (init mgr md allowed f) pre in
  succeeds ctx (Swap p) s = true ->
  exec s [(ctx, Swap p); (ctx, CancelSwap (counter s))]
    = set_counter (counter s + 1) s /\
  exec_ops s [(ctx, Swap p); (ctx, CancelSwap (counter s))]
    = [token_move (p_fa2 p) (sender ctx) (self_address ctx)
                  (p_objkt_id p) (p_objkt_amount p);
       token_move (p_fa2 p) (self_address ctx) (sender ctx)
                  (p_objkt_id p) (p_objkt_amount p)].
Proof.
  intros s Hs.
  assert (Hfresh : swaps s !! counter s = None).
  { destruct (swaps s !! counter s) as [w|] eqn:Hw; [|done].
    destruct (reachable_wf mgr md allowed f pre _ w Hw) as (Hlt & _).
    fold s in Hlt. lia. }
  apply succeeds_effect in Hs as (s1 & ops1 & He).
  pose proof (transaction_complete _ _ _ _ _ He) as Ht1.
  inversion He; subst s1 ops1.
  assert (Ht2 : transaction ctx (CancelSwap (counter s))
            (set_counter (counter s + 1)
               (set_swaps (insert (counter s) (new_swap ctx p)) s))
          = inr (set_swaps (delete (counter s))
                   (set_counter (counter s + 1)
                      (set_swaps (insert (counter s) (new_swap ctx p)) s)),
                 [token_move (p_fa2 p) (self_address ctx) (sender ctx)
                             (p_objkt_id p) (p_objkt_amount p)])).
  { apply transaction_complete.
    apply (effect_cancel_swap ctx _ (counter s) (new_swap ctx p)); try done.
    simpl. apply lookup_insert_eq. }
  split.
  - rewrite !exec_cons. rewrite (step_done _ _ _ _ _ Ht1).
    rewrite (step_done _ _ _ _ _ Ht2). simpl.
    unfold set_swaps, set_counter. simpl.
    rewrite delete_insert_eq, delete_id by done. reflexivity.
  - simpl. unfold emitted. simpl. rewrite Ht1.
    rewrite (step_done _ _ _ _ _ Ht1), Ht2. reflexivity.
Qed.

End Marketplace.

(** ** Concrete runs on the compilation target *)

Lemma collect_split_conservation_witness :
  total_tez
    [Send artist 100; Send admin 25; Send seller 875;
     token_move objkt marketplace buyer 7 1] = 1000.
Proof.
  destruct (collect_split_conservation objkt_chain implicit_accounts (call_as buyer 1000) 0
              (exec objkt_chain implicit_accounts deployed [listing])
              (exec objkt_chain implicit_accounts deployed [listing; purchase])
              [Send artist 100; Send admin 25; Send seller 875;
               token_move objkt marketplace buyer 7 1]
              (new_swap (call_as seller 0) offer)
              ltac:(vm_compute; reflexivity) ltac:(vm_compute; reflexivity))
    as (issuerAmount & _ & _ & _ & Htotal).
  exact Htotal.
Defined.

Lemma swap_ids_sequential_witness :
  NoDup (assigned_ids objkt_chain implicit_accounts deployed
           [listing; purchase; withdrawal; listing; purchase; listing]).
Proof.
  exact (proj1 (proj2 (swap_ids_sequential objkt_chain implicit_accounts admin target_metadata target_allowed 25
    [listing; purchase; withdrawal; listing; purchase; listing]))).
Defined.

Lemma remaining_editions_witness :
  succeeds objkt_chain implicit_accounts (call_as seller 0) (Swap offer)
    deployed = true /\
  swaps (exec objkt_chain implicit_accounts
           (step objkt_chain implicit_accounts deployed listing)
           [purchase; (call_as buyer 999, Collect 0);
            (call_as admin 0, PauseSwaps true)]) !! 0
  = Some (set_objkt_amount 1 (new_swap (call_as seller 0) offer)).
Proof.
  split; [vm_compute; reflexivity|].
  exact (proj1 (proj2 (proj2 (proj2 (proj2 (proj2
    (remaining_editions objkt_chain implicit_accounts
       admin target_metadata target_allowed 25
       [] (call_as seller 0) offer
       [purchase; (call_as buyer 999, Collect 0);
        (call_as admin 0, PauseSwaps true)]
       ltac:(vm_compute; reflexivity)))))))).
Defined.

Lemma collect_guarded_witness :
  succeeds objkt_chain implicit_accounts (call_as buyer 1001) (Collect 0)
           (exec objkt_chain implicit_accounts deployed [listing]) = false.
Proof.
  apply (proj2 (proj2 (collect_guarded objkt_chain implicit_accounts (call_as buyer 1001) 0
           (exec objkt_chain implicit_accounts deployed [listing])))
         (new_swap (call_as seller 0) offer)).
  - vm_compute; reflexivity.
  - vm_compute. discriminate.
Defined.

Lemma exhausted_swap_persists_witness :
  swaps (exec objkt_chain implicit_accounts
           (exec objkt_chain implicit_accounts deployed [listing; purchase; purchase])
           [withdrawal; purchase; listing]) !! 0
  = Some (set_objkt_amount 0 (new_swap (call_as seller 0) offer)).
Proof.
  apply (exhausted_swap_persists objkt_chain implicit_accounts admin target_metadata target_allowed 25
    [listing; purchase; purchase] 0
    (set_objkt_amount 0 (new_swap (call_as seller 0) offer))
    [withdrawal; purchase; listing]).
  - vm_compute; reflexivity.
  - reflexivity.
Defined.

Lemma cancel_swap_removes_witness :
  has_swap
    (set_swaps (delete 0) (exec objkt_chain implicit_accounts deployed [listing; purchase])) 0
  = inr false.
Proof.
  apply (cancel_swap_removes objkt_chain implicit_accounts admin target_metadata target_allowed 25
    [listing; purchase] (call_as seller 0) 0
    (set_objkt_amount 1 (new_swap (call_as seller 0) offer))).
  - vm_compute; reflexivity.
  - reflexivity.
  - reflexivity.
  - vm_compute; reflexivity.
Defined.

(** C7 as stated fails: the proposed manager calls [accept_manager] while a
    proposal for it is pending, with one mutez attached, and the call fails;
    so does [transfer_manager] called by the manager with one mutez. *)
Lemma accept_manager_rejects_tez :
  proposed_manager
    (exec objkt_chain implicit_accounts deployed [(call_as admin 0, TransferManager successor)])
    = Some (sender (call_as successor 1)) /\
  transaction objkt_chain implicit_accounts (call_as successor 1) AcceptManager
    (exec objkt_chain implicit_accounts deployed [(call_as admin 0, TransferManager successor)])
    = inl (FailWith "The operation does not need tez transfers") /\
  sender (call_as admin 1) = manager deployed /\
  transaction objkt_chain implicit_accounts (call_as admin 1) (TransferManager successor) deployed
    = inl (FailWith "The operation does not need tez transfers").
Proof. vm_compute. repeat split. Qed.

Lemma manager_handover_witness :
  transaction objkt_chain implicit_accounts (call_as successor 0) AcceptManager
    (exec objkt_chain implicit_accounts deployed [(call_as admin 0, TransferManager successor)])
  = inr (set_proposed_manager None
           (set_manager successor
              (exec objkt_chain implicit_accounts deployed
                 [(call_as admin 0, TransferManager successor)])), []).
Proof.
  apply (proj1 (proj2 (proj2 (manager_handover objkt_chain implicit_accounts
    (call_as successor 0)
    (exec objkt_chain implicit_accounts deployed
       [(call_as admin 0, TransferManager successor)]))))).
  - vm_compute; reflexivity.
  - reflexivity.
Defined.

Lemma remove_fa2_soft_witness :
  allowed_fa2s (exec objkt_chain implicit_accounts deployed [(call_as admin 0, RemoveFa2 objkt)])
    !! objkt = Some false.
Proof.
  apply (remove_fa2_soft objkt_chain implicit_accounts (call_as admin 0) objkt deployed
           (exec objkt_chain implicit_accounts deployed [(call_as admin 0, RemoveFa2 objkt)]) []).
  vm_compute; reflexivity.
Defined.

Lemma fee_bounded_witness :
  fee (exec objkt_chain implicit_accounts deployed
         [(call_as admin 0, UpdateFee 300); (call_as admin 0, UpdateFee 100)])
  <= 250.
Proof.
  apply (fee_bounded objkt_chain implicit_accounts admin target_metadata target_allowed 25
    [(call_as admin 0, UpdateFee 300); (call_as admin 0, UpdateFee 100)]).
  vm_compute. discriminate.
Defined.

Lemma issuer_share_positive_witness :
  (0 < Z.of_N 1000 - Z.of_N (1000 * 100 / 1000) - Z.of_N (1000 * 25 / 1000))%Z.
Proof.
  apply (issuer_share_positive objkt_chain implicit_accounts 1000 100 25);
    vm_compute; first [reflexivity | discriminate].
Defined.

(** ** Further runs on the compilation target *)

Lemma swap_characterised_witness :
  transaction objkt_chain implicit_accounts (call_as seller 0) (Swap offer) deployed
  = inr (set_counter 1
           (set_swaps (insert 0 (new_swap (call_as seller 0) offer)) deployed),
         [token_move objkt seller marketplace 7 2]).
Proof.
  apply (proj2 (swap_characterised objkt_chain implicit_accounts (call_as seller 0) offer
                  deployed _ _)).
  repeat split; vm_compute; first [reflexivity | discriminate].
Defined.

Lemma swap_failure_messages_witness :
  transaction objkt_chain implicit_accounts (call_as seller 0)
    (Swap (mk_swap_params "KT1other" 7 2 1000 100 artist)) deployed
  = inl (FailWith "This token type cannot be traded").
Proof.
  apply (proj1 (proj2 (proj2 (swap_failure_messages objkt_chain implicit_accounts
    (call_as seller 0) (mk_swap_params "KT1other" 7 2 1000 100 artist)
    deployed)))).
  - reflexivity.
  - reflexivity.
  - vm_compute. discriminate.
Defined.

Lemma cancel_swap_failure_messages_witness :
  transaction objkt_chain implicit_accounts (call_as seller 0) (CancelSwap 5) deployed
  = inl (FailWith "The provided swap_id doesn't exist").
Proof.
  apply (proj1 (proj2 (cancel_swap_failure_messages objkt_chain implicit_accounts
    (call_as seller 0) 5 deployed))).
  - reflexivity.
  - vm_compute; reflexivity.
Defined.

Lemma manager_only_guard_witness :
  transaction objkt_chain implicit_accounts (call_as buyer 5) (UpdateFee 10) deployed
  = inl (FailWith "This can only be executed by the manager").
Proof.
  apply (proj1 (manager_only_guard objkt_chain implicit_accounts (call_as buyer 5)
                  (UpdateFee 10) deployed eq_refl)).
  vm_compute. discriminate.
Defined.

Lemma configuration_protected_witness :
  configuration (step objkt_chain implicit_accounts deployed (call_as buyer 0, UpdateFee 0))
  = configuration deployed.
Proof.
  apply (configuration_protected objkt_chain implicit_accounts (call_as buyer 0) (UpdateFee 0)
           deployed).
  right. split; vm_compute; discriminate.
Defined.

Lemma tez_passes_through_witness :
  total_tez
    [Send artist 100; Send admin 25; Send seller 875;
     token_move objkt marketplace buyer 7 1]
  = amount (call_as buyer 1000).
Proof.
  apply (tez_passes_through objkt_chain implicit_accounts (call_as buyer 1000) (Collect 0)
           (exec objkt_chain implicit_accounts deployed [listing])
           (exec objkt_chain implicit_accounts deployed [listing; purchase])).
  vm_compute; reflexivity.
Defined.

Lemma swap_terms_immutable_witness :
  xtz_per_objkt (set_objkt_amount 1 (new_swap (call_as seller 0) offer))
  = xtz_per_objkt (new_swap (call_as seller 0) offer).
Proof.
  apply (swap_terms_immutable objkt_chain implicit_accounts admin target_metadata target_allowed
           25 [listing] 0 (new_swap (call_as seller 0) offer)
           [purchase; (call_as admin 0, UpdateFee 100)]
           (set_objkt_amount 1 (new_swap (call_as seller 0) offer)));
    vm_compute; reflexivity.
Defined.

Lemma views_reflect_storage_witness :
  has_swap (exec objkt_chain implicit_accounts deployed [listing]) 3 = inr false.
Proof.
  apply (proj1 (proj2 (proj2 (proj2 (views_reflect_storage objkt_chain implicit_accounts admin
    target_metadata target_allowed 25 [listing] 3)))) 1).
  - vm_compute; reflexivity.
  - vm_compute. discriminate.
Defined.

Lemma cancel_swap_unaffected_by_governance_witness :
  succeeds objkt_chain implicit_accounts (call_as seller 0) (CancelSwap 0)
    (exec objkt_chain implicit_accounts (exec objkt_chain implicit_accounts deployed [listing])
       [(call_as admin 0, PauseSwaps true);
        (call_as admin 0, PauseCollects true);
        (call_as admin 0, RemoveFa2 objkt)])
  = succeeds objkt_chain implicit_accounts (call_as seller 0) (CancelSwap 0)
      (exec objkt_chain implicit_accounts deployed [listing]).
Proof.
  apply (cancel_swap_unaffected_by_governance objkt_chain implicit_accounts (call_as seller 0) 0
           (exec objkt_chain implicit_accounts deployed [listing])).
  repeat (constructor; [left; reflexivity|]). constructor.
Defined.


Lemma issuer_gets_half_witness :
  exists v,
    Send seller v ∈ [Send artist 100; Send admin 25; Send seller 875;
                     token_move objkt marketplace buyer 7 1]
    /\ 1000 <= 2 * v.
Proof.
  apply (issuer_gets_half objkt_chain implicit_accounts admin target_metadata target_allowed 25
           [listing] (call_as buyer 1000) 0
           (new_swap (call_as seller 0) offer)
           (exec objkt_chain implicit_accounts deployed [listing; purchase])).
  - vm_compute. discriminate.
  - vm_compute; reflexivity.
  - vm_compute. discriminate.
  - vm_compute; reflexivity.
Defined.

Lemma handover_transfers_rights_witness :
  manager (exec objkt_chain implicit_accounts deployed
             [(call_as admin 0, TransferManager successor);
              (call_as successor 0, AcceptManager)])
  = successor.
Proof.
  apply (handover_transfers_rights objkt_chain implicit_accounts (call_as admin 0)
           (call_as successor 0) successor deployed); reflexivity.
Defined.

Lemma pause_switches_independent_witness :
  step objkt_chain implicit_accounts deployed (call_as admin 0, PauseSwaps true)
  = set_swaps_paused true deployed.
Proof.
  apply (pause_switches_independent objkt_chain implicit_accounts (call_as admin 0) deployed
           true); reflexivity.
Defined.

Lemma allow_list_updates_witness :
  is_allowed_fa2
    (step objkt_chain implicit_accounts deployed (call_as admin 0, AddFa2 "KT1other"))
    "KT1other" = inr true.
Proof.
  apply (allow_list_updates objkt_chain implicit_accounts (call_as admin 0) "KT1other"
           deployed); reflexivity.
Defined.

Lemma custody_conserved_witness :
  sum_with (editions_to marketplace objkt 7)
    (exec_ops objkt_chain implicit_accounts deployed [listing; purchase; listing; withdrawal])
  = sum_with (editions_from marketplace objkt 7)
      (exec_ops objkt_chain implicit_accounts deployed [listing; purchase; listing; withdrawal])
    + escrowed objkt 7
        (exec objkt_chain implicit_accounts deployed [listing; purchase; listing; withdrawal]).
Proof.
  apply (custody_conserved objkt_chain implicit_accounts admin target_metadata target_allowed 25
           marketplace objkt 7 [listing; purchase; listing; withdrawal]).
  repeat (constructor; [split; [reflexivity|vm_compute; discriminate]|]).
  constructor.
Defined.

Lemma metadata_updates_witness :
  metadata (step objkt_chain implicit_accounts deployed (call_as admin 0, UpdateMetadata "name" []))
    !! "name" = Some [].
Proof.
  apply (metadata_updates objkt_chain implicit_accounts (call_as admin 0) "name" [] deployed
           (step objkt_chain implicit_accounts deployed
              (call_as admin 0, UpdateMetadata "name" [])) []).
  vm_compute; reflexivity.
Defined.

Lemma swap_then_cancel_witness :
  exec objkt_chain implicit_accounts deployed [listing; withdrawal] = set_counter 1 deployed.
Proof.
  exact (proj1 (swap_then_cancel objkt_chain implicit_accounts admin target_metadata
    target_allowed 25 [] (call_as seller 0) offer
    ltac:(vm_compute; reflexivity))).
Defined.
